(** * Job queue: priority store, delay scheduler and retrying worker

    A shallow embedding of the Go packages [utils], [queue], [scheduler]
    and [worker], with the properties of the priority store, of the
    scheduler's heap and of the worker's retry protocol proved over it.

    Conventions of the embedding
    - a Go [map[Priority][]Job] is a [gmap Z (list Job)]; reading a key
      that is absent yields the nil slice, written [lane m p];
    - a slice is the list of its elements: every lane owns its backing
      array (lanes are only appended to, resliced or compacted in place),
      so no write to one lane is visible through another;
    - [utils.Priority] is a Go [int], embedded as [Z]; [RetryCount] and
      [MaxRetries] are Go [int]s (64 bits), the increment wraps around;
    - a [time.Time] is the instant it denotes, in nanoseconds from the
      zero [Time], as a [Z]; a [time.Duration] is an [int64] number of
      nanoseconds;
    - each method that runs under [q.mu] is one atomic state transformer. *)

From stdpp Require Import gmap strings list fin_maps.
From Stdlib Require Import ZArith Lia ZifyNat.

Local Open Scope Z_scope.

(** ** Package utils *)

Module utils.

(** [type Priority int] and its three constants. *)
Definition High : Z := 1.
Definition Medium : Z := 2.
Definition Low : Z := 3.

(** [Type_] is the field [Type]. *)
Record Job := mkJob {
  ID : string;
  Type_ : string;
  Payload : gmap string string;
  Priority : Z;
  RetryCount : Z;
  MaxRetries : Z;
  CreatedAt : Z
}.

(** The zero value [utils.Job{}]. *)
Definition zeroJob : Job := mkJob "" "" ∅ 0 0 0 0.

(** [RemoveJob]: at the first [i] with [jobs[i].ID == job.ID], the result
    is [append(jobs[:i], jobs[i+1:]...)], the entries before [i] followed
    by those after; with no such [i], the slice itself. *)
Fixpoint RemoveJob (jobs : list Job) (job : Job) : list Job :=
  match jobs with
  | [] => []
  | j :: rest =>
      if String.eqb (ID j) (ID job) then rest
      else j :: RemoveJob rest job
  end.

(** The priorities the store has a lane for. *)
Definition known_priority (p : Z) : Prop :=
  p = High ∨ p = Medium ∨ p = Low.

#[global] Instance known_priority_dec p : Decision (known_priority p).
Proof. unfold known_priority. apply _. Defined.

End utils.

(** ** Package queue *)

Module queue.
Import utils.

(** The struct, without its mutex: every method holds [q.mu] from its
    first statement to its return, and is embedded as a function of the
    store. A method that returns its receiver is given the store after
    the call as its result. *)
Record JobQueue := mkJobQueue {
  queue : gmap Z (list Job);
  deadLetterQueue : gmap Z (list Job)
}.

(** A Go [error]: [None] is [nil]. *)
Abbreviation error := (option string) (only parsing).

(** [m[p]] for a map of slices: the nil slice when [p] is not a key. *)
Definition lane (m : gmap Z (list Job)) (p : Z) : list Job :=
  default [] (m !! p).

(** Both maps with an empty slice under each of the three priorities. *)
Definition NewQueue : JobQueue :=
  mkJobQueue
    (<[High := []]> (<[Medium := []]> (<[Low := []]> ∅)))
    (<[High := []]> (<[Medium := []]> (<[Low := []]> ∅))).

(** [switch job.Priority] with the cases High, Medium, Low and no
    default: the job is appended to the lane of its priority. *)
Definition AddJob (q : JobQueue) (job : Job) : JobQueue :=
  if Priority job =? High then
    mkJobQueue (<[High := lane (queue q) High ++ [job]]> (queue q))
               (deadLetterQueue q)
  else if Priority job =? Medium then
    mkJobQueue (<[Medium := lane (queue q) Medium ++ [job]]> (queue q))
               (deadLetterQueue q)
  else if Priority job =? Low then
    mkJobQueue (<[Low := lane (queue q) Low ++ [job]]> (queue q))
               (deadLetterQueue q)
  else q.

Definition no_job_found : error := Some "no job found"%string.

(** The first of the High, Medium and Low lanes with [len > 0] gives its
    entry [0] and is resliced from [1]; with none, the zero job and the
    error. The result is the pair the method returns and the store. *)
Definition GetJob (q : JobQueue) : (Job * error) * JobQueue :=
  match lane (queue q) High with
  | job :: rest =>
      ((job, None), mkJobQueue (<[High := rest]> (queue q)) (deadLetterQueue q))
  | [] =>
      match lane (queue q) Medium with
      | job :: rest =>
          ((job, None),
           mkJobQueue (<[Medium := rest]> (queue q)) (deadLetterQueue q))
      | [] =>
          match lane (queue q) Low with
          | job :: rest =>
              ((job, None),
               mkJobQueue (<[Low := rest]> (queue q)) (deadLetterQueue q))
          | [] => ((zeroJob, no_job_found), q)
          end
      end
  end.

(** [switch job.Priority]: the lane of the priority becomes
    [utils.RemoveJob] of itself. *)
Definition RemoveJobFromQueue (q : JobQueue) (job : Job) : JobQueue :=
  if Priority job =? High then
    mkJobQueue (<[High := RemoveJob (lane (queue q) High) job]> (queue q))
               (deadLetterQueue q)
  else if Priority job =? Medium then
    mkJobQueue (<[Medium := RemoveJob (lane (queue q) Medium) job]> (queue q))
               (deadLetterQueue q)
  else if Priority job =? Low then
    mkJobQueue (<[Low := RemoveJob (lane (queue q) Low) job]> (queue q))
               (deadLetterQueue q)
  else q.

(** [switch job.Priority]: in each case the pending lane becomes
    [utils.RemoveJob] of itself and the job is appended to the
    dead-letter lane. *)
Definition MoveJobToDeadLetterQueue (q : JobQueue) (job : Job) : JobQueue :=
  if Priority job =? High then
    mkJobQueue
      (<[High := RemoveJob (lane (queue q) High) job]> (queue q))
      (<[High := lane (deadLetterQueue q) High ++ [job]]> (deadLetterQueue q))
  else if Priority job =? Medium then
    mkJobQueue
      (<[Medium := RemoveJob (lane (queue q) Medium) job]> (queue q))
      (<[Medium := lane (deadLetterQueue q) Medium ++ [job]]> (deadLetterQueue q))
  else if Priority job =? Low then
    mkJobQueue
      (<[Low := RemoveJob (lane (queue q) Low) job]> (queue q))
      (<[Low := lane (deadLetterQueue q) Low ++ [job]]> (deadLetterQueue q))
  else q.

(** As [GetJob], on the dead-letter lanes. *)
Definition GetDeadLetterJob (q : JobQueue) : (Job * error) * JobQueue :=
  match lane (deadLetterQueue q) High with
  | job :: rest =>
      ((job, None), mkJobQueue (queue q) (<[High := rest]> (deadLetterQueue q)))
  | [] =>
      match lane (deadLetterQueue q) Medium with
      | job :: rest =>
          ((job, None),
           mkJobQueue (queue q) (<[Medium := rest]> (deadLetterQueue q)))
      | [] =>
          match lane (deadLetterQueue q) Low with
          | job :: rest =>
              ((job, None),
               mkJobQueue (queue q) (<[Low := rest]> (deadLetterQueue q)))
          | [] => ((zeroJob, no_job_found), q)
          end
      end
  end.

(** The three lanes as they are (the error returned is always [nil]). *)
Definition GetAllJobs (q : JobQueue) : list Job * list Job * list Job :=
  (lane (queue q) High, lane (queue q) Medium, lane (queue q) Low).

Definition GetAllDeadLetterJobs (q : JobQueue)
  : list Job * list Job * list Job :=
  (lane (deadLetterQueue q) High, lane (deadLetterQueue q) Medium,
   lane (deadLetterQueue q) Low).

(** The producer side: a sequence of [AddJob] calls, in order. *)
Definition AddJobs (q : JobQueue) (jobs : list Job) : JobQueue :=
  foldl AddJob q jobs.

(** The consumer side: up to [n] successive [GetJob] calls, stopping at
    the first one that returns an error; the jobs received, in order,
    and the store left behind. *)
Fixpoint drain (n : nat) (q : JobQueue) : list Job * JobQueue :=
  match n with
  | O => ([], q)
  | S n' =>
      match GetJob q with
      | ((job, None), q') =>
          let '(rest, q'') := drain n' q' in (job :: rest, q'')
      | ((_, Some _), _) => ([], q)
      end
  end.

(** The jobs of priority [p] among [jobs], in their order of arrival. *)
Definition of_priority (p : Z) (jobs : list Job) : list Job :=
  filter (λ j, Priority j = p) jobs.

(** The store as [NewQueue] makes it and as every method keeps it: each
    of the three priorities is a key of both maps. *)
Definition initialised (q : JobQueue) : Prop :=
  ∀ p, known_priority p →
       is_Some (queue q !! p) ∧ is_Some (deadLetterQueue q !! p).

(** No entry of the lane has the ID of [job]. *)
Definition no_entry_with_ID (job : Job) (jobs : list Job) : Prop :=
  Forall (λ j, ID j ≠ ID job) jobs.

(** The entries of a slice that have the ID of [job]. *)
Definition copies (job : Job) (jobs : list Job) : list Job :=
  filter (λ j, ID j = ID job) jobs.

(** The jobs a store hands out, in the order [GetJob] does. *)
Definition service_order (q : JobQueue) : list Job :=
  lane (queue q) High ++ lane (queue q) Medium ++ lane (queue q) Low.

(** The same for the dead-letter lanes and [GetDeadLetterJob]. *)
Definition dead_letter_order (q : JobQueue) : list Job :=
  lane (deadLetterQueue q) High ++ lane (deadLetterQueue q) Medium
  ++ lane (deadLetterQueue q) Low.

(** *** Sequences of calls

    The calls a client of the store can make, what a call leaves of the
    store, and the job it hands to the caller when it is a [GetJob] or a
    [GetDeadLetterJob] that returns no error. *)
Inductive method :=
| CallAddJob (job : Job)
| CallGetJob
| CallRemoveJobFromQueue (job : Job)
| CallMoveJobToDeadLetterQueue (job : Job)
| CallGetDeadLetterJob.

Definition call (q : JobQueue) (m : method) : JobQueue :=
  match m with
  | CallAddJob job => AddJob q job
  | CallGetJob => snd (GetJob q)
  | CallRemoveJobFromQueue job => RemoveJobFromQueue q job
  | CallMoveJobToDeadLetterQueue job => MoveJobToDeadLetterQueue q job
  | CallGetDeadLetterJob => snd (GetDeadLetterJob q)
  end.

Definition calls (ms : list method) (q : JobQueue) : JobQueue :=
  foldl call q ms.

(** The job of a result [(job, err)] with [err == nil]. *)
Definition returned (r : Job * error) : list Job :=
  match r with
  | (job, None) => [job]
  | (_, Some _) => []
  end.

(** The jobs the [GetJob] calls of a sequence return, in order. *)
Fixpoint received (ms : list method) (q : JobQueue) : list Job :=
  match ms with
  | [] => []
  | m :: ms' =>
      match m with
      | CallGetJob => returned (fst (GetJob q))
      | _ => []
      end ++ received ms' (call q m)
  end.

(** The jobs the [AddJob] calls of a sequence are given, in order. *)
Definition added (ms : list method) : list Job :=
  flat_map (λ m, match m with CallAddJob job => [job] | _ => [] end) ms.

(** The sequence only adds and gets pending jobs. *)
Definition adds_and_gets (ms : list method) : Prop :=
  Forall (λ m, match m with
               | CallAddJob _ | CallGetJob | CallGetDeadLetterJob => True
               | _ => False
               end) ms.

(** Up to [n] successive [GetDeadLetterJob] calls, as [drain]. *)
Fixpoint drain_dead (n : nat) (q : JobQueue) : list Job * JobQueue :=
  match n with
  | O => ([], q)
  | S n' =>
      match GetDeadLetterJob q with
      | ((job, None), q') =>
          let '(rest, q'') := drain_dead n' q' in (job :: rest, q'')
      | ((_, Some _), _) => ([], q)
      end
  end.

(** A sequence of [MoveJobToDeadLetterQueue] calls, in order. *)
Definition MoveJobs (q : JobQueue) (jobs : list Job) : JobQueue :=
  foldl MoveJobToDeadLetterQueue q jobs.

(** The keys of both maps are the three priorities. *)
Definition has_lanes (q : JobQueue) : Prop :=
  dom (queue q) = ({[High; Medium; Low]} : gset Z)
  ∧ dom (deadLetterQueue q) = ({[High; Medium; Low]} : gset Z).

(** Every job of a lane, pending or dead-letter, has the priority of the
    lane. *)
Definition lanes_pure (q : JobQueue) : Prop :=
  ∀ (p : Z) (x : Job),
    (x ∈ lane (queue q) p → Priority x = p)
    ∧ (x ∈ lane (deadLetterQueue q) p → Priority x = p).

End queue.

(** ** Package scheduler *)

Module scheduler.

(** [index] is the field the heap writes positions to (an [int]; the
    positions are natural numbers here). Nothing reads it. *)
Record ScheduleJob := mkScheduleJob {
  Job : utils.Job;
  ScheduleTime : Z;
  index : nat
}.

(** [JobHeap] is a slice of pointers to [ScheduleJob]s. Every pointer is
    created by one call of the scheduler and is held by the heap alone,
    so the slice is embedded as the list of the records pointed to. *)
Abbreviation JobHeap := (list ScheduleJob) (only parsing).

Definition set_index (e : ScheduleJob) (i : nat) : ScheduleJob :=
  mkScheduleJob (Job e) (ScheduleTime e) i.

Definition Len (h : JobHeap) : nat := length h.

(** [h[i].ScheduleTime.Before(h[j].ScheduleTime)]. An index outside the
    slice makes Go panic; the functions of [container/heap] below only
    pass indices below [Len]. *)
Definition Less (h : JobHeap) (i j : nat) : bool :=
  match h !! i, h !! j with
  | Some a, Some b => bool_decide (ScheduleTime a < ScheduleTime b)
  | _, _ => false
  end.

(** [h[i], h[j] = h[j], h[i]; h[i].index, h[j].index = j, i]: the entry
    that arrives at position [i] records [j], and the other way round. *)
Definition Swap (h : JobHeap) (i j : nat) : JobHeap :=
  match h !! i, h !! j with
  | Some a, Some b => <[j := set_index a i]> (<[i := set_index b j]> h)
  | _, _ => h
  end.

(** The entry records the length of the slice as its [index] and is
    appended to the slice. *)
Definition Push (h : JobHeap) (x : ScheduleJob) : JobHeap :=
  h ++ [set_index x (length h)].

(** [Pop] returns the last entry and the slice without it; [None] stands
    for the panic of [old[n-1]] on an empty slice. *)
Definition Pop (h : JobHeap) : option (ScheduleJob * JobHeap) :=
  match h !! (length h - 1)%nat with
  | Some job => Some (job, take (length h - 1) h)
  | None => None
  end.

(** *** Go's container/heap, over the methods above

    [up] and [down] are the two loops of the standard library. Each
    iteration moves the index strictly (towards the root in [up], away
    from it in [down]); the loops are written with a counter that bounds
    the number of iterations, and [up] and [down] start them with a
    counter that the loop cannot exhaust (see [up_loop_fuel] and
    [down_loop_fuel]). In [up], [(j - 1) / 2] is Go's truncating
    division, which gives 0 for [j = 0], as does the division on [nat].
    In [down], the test [j1 < 0] of the library catches the overflow of
    [2*i + 1] in an [int], which no slice is long enough to cause; the
    indices here are natural numbers. *)
Fixpoint up_loop (fuel : nat) (h : JobHeap) (j : nat) : JobHeap :=
  match fuel with
  | O => h
  | S fuel' =>
      let i := ((j - 1) / 2)%nat in
      if (i =? j)%nat || negb (Less h j i) then h
      else up_loop fuel' (Swap h i j) i
  end.

Definition up (h : JobHeap) (j : nat) : JobHeap := up_loop (S j) h j.

Fixpoint down_loop (fuel : nat) (h : JobHeap) (i n : nat) : JobHeap :=
  match fuel with
  | O => h
  | S fuel' =>
      let j1 := (2 * i + 1)%nat in
      if (n <=? j1)%nat then h
      else
        let j2 := (j1 + 1)%nat in
        let j := if (j2 <? n)%nat && Less h j2 j1 then j2 else j1 in
        if negb (Less h j i) then h
        else down_loop fuel' (Swap h i j) j n
  end.

Definition down (h : JobHeap) (i0 n : nat) : JobHeap := down_loop n h i0 n.

(** [heap.Init]: [for i := n/2 - 1; i >= 0; i-- { down(h, i, n) }]. *)
Definition heap_Init (h : JobHeap) : JobHeap :=
  let n := Len h in
  foldl (λ h' i, down h' i n) h (reverse (seq 0 (n / 2))).

(** [heap.Push]: [h.Push(x); up(h, h.Len()-1)]. *)
Definition heap_Push (h : JobHeap) (x : ScheduleJob) : JobHeap :=
  let h1 := Push h x in
  up h1 (Len h1 - 1).

(** [heap.Pop]: [n := h.Len() - 1; h.Swap(0, n); down(h, 0, n);
    return h.Pop()]. On an empty heap [h.Swap(0, -1)] panics. *)
Definition heap_Pop (h : JobHeap) : option (ScheduleJob * JobHeap) :=
  match h with
  | [] => None
  | _ :: _ =>
      let n := (Len h - 1)%nat in
      Pop (down (Swap h 0 n) 0 n)
  end.

(** *** The scheduler

    [queue] is the store the scheduler was built with; the scheduler
    reaches it only through [AddJob]. *)
Record Scheduler := mkScheduler {
  heap : JobHeap;
  queue : queue.JobQueue
}.

(** [NewScheduler]: [heap.Init] on the empty heap, then the poller is
    started (its iterations are [poller_tick]). *)
Definition NewScheduler (q : queue.JobQueue) : Scheduler :=
  mkScheduler (heap_Init []) q.

(** [time.Now().Add(delay)], [now] being the reading of the clock. *)
Definition Time_Add (t delay : Z) : Z := t + delay.

(** [t.After(u)]. *)
Definition Time_After (t u : Z) : bool := bool_decide (u < t).

(** The method [Scheduler] of the type [Scheduler]. *)
Definition Scheduler_Scheduler (now : Z) (s : Scheduler)
    (j : utils.Job) (delay : Z) : Scheduler :=
  let scheduled := mkScheduleJob j (Time_Add now delay) 0 in
  mkScheduler (heap_Push (heap s) scheduled) (queue s).

(** One iteration of the [for] loop of [poller], the clock reading [now]
    (the iteration then sleeps for 500 ms). *)
Definition poller_tick (now : Z) (s : Scheduler) : Scheduler :=
  if (0 <? Len (heap s))%nat then
    match heap s !! 0%nat with
    | Some next =>
        if Time_After now (ScheduleTime next) then
          match heap_Pop (heap s) with
          | Some (_, h') => mkScheduler h' (queue.AddJob (queue s) (Job next))
          | None => s
          end
        else s
    | None => s
    end
  else s.

(** What happens to a scheduler: calls of [Scheduler] by producers and
    iterations of the poller, each with the time it reads. *)
Inductive op :=
| OpSchedule (now : Z) (j : utils.Job) (delay : Z)
| OpTick (now : Z).

Definition step (s : Scheduler) (o : op) : Scheduler :=
  match o with
  | OpSchedule now j delay => Scheduler_Scheduler now s j delay
  | OpTick now => poller_tick now s
  end.

Definition run (ops : list op) (s : Scheduler) : Scheduler :=
  foldl step s ops.

(** The job and the time of an entry: what [Swap] never changes. *)
Definition entry (e : ScheduleJob) : utils.Job * Z := (Job e, ScheduleTime e).

(** The time of the entry at position [i] (0 outside the slice). *)
Definition time_at (h : JobHeap) (i : nat) : Z :=
  match h !! i with Some e => ScheduleTime e | None => 0 end.

(** The heap order on the first [n] positions: no entry is earlier than
    its parent. *)
Definition heap_ordered (h : JobHeap) (n : nat) : Prop :=
  ∀ c : nat, (0 < c < n)%nat → time_at h ((c - 1) / 2) ≤ time_at h c.

(** The root is an earliest entry. *)
Definition root_earliest (h : JobHeap) : Prop :=
  ∀ (i : nat) (e : ScheduleJob), h !! i = Some e → time_at h 0 ≤ ScheduleTime e.

(** Where the entry at position [k] was before [Swap h i j]. *)
Definition transpose (i j k : nat) : nat :=
  if decide (k = j) then i else if decide (k = i) then j else k.

(** The heap order holds on the first [n] positions except between
    position [j] and its parent, and the children of [j] are no earlier
    than the parent of [j]: what the loop of [up] maintains. *)
Definition up_inv (h : JobHeap) (n j : nat) : Prop :=
  (∀ c : nat, (0 < c < n)%nat → c ≠ j →
      time_at h ((c - 1) / 2) ≤ time_at h c)
  ∧ (∀ c : nat, (0 < c < n)%nat → ((c - 1) / 2)%nat = j → (0 < j)%nat →
      time_at h ((j - 1) / 2) ≤ time_at h c).

(** The heap order holds on the first [n] positions except between
    position [i] and its children, which are no earlier than the parent
    of [i]: what the loop of [down] maintains. *)
Definition down_inv (h : JobHeap) (n i : nat) : Prop :=
  (∀ c : nat, (0 < c < n)%nat → ((c - 1) / 2)%nat ≠ i →
      time_at h ((c - 1) / 2) ≤ time_at h c)
  ∧ (∀ c : nat, (0 < c < n)%nat → ((c - 1) / 2)%nat = i → (0 < i)%nat →
      time_at h ((i - 1) / 2) ≤ time_at h c).

(** *** What a run schedules and what it promotes *)

(** The jobs the calls of [Scheduler] of a run are given, in order. *)
Definition scheduled (ops : list op) : list utils.Job :=
  flat_map (λ o, match o with OpSchedule _ j _ => [j] | OpTick _ => [] end) ops.

(** The entry an iteration of the poller pops: the root, when there is
    one and the clock reading is after its time. *)
Definition popped (now : Z) (s : Scheduler) : list ScheduleJob :=
  match heap s !! 0%nat with
  | Some next => if Time_After now (ScheduleTime next) then [next] else []
  | None => []
  end.

(** The entries the iterations of the poller of a run pop, in order. *)
Fixpoint promotions (ops : list op) (s : Scheduler) : list ScheduleJob :=
  match ops with
  | [] => []
  | o :: ops' =>
      match o with
      | OpTick now => popped now s
      | OpSchedule _ _ _ => []
      end ++ promotions ops' (step s o)
  end.

(** The jobs of a slice whose priority the store has a lane for. *)
Definition storable (jobs : list utils.Job) : list utils.Job :=
  filter (λ j, utils.known_priority (utils.Priority j)) jobs.

(** The times are in nondecreasing order. *)
Fixpoint nondecreasing (times : list Z) : Prop :=
  match times with
  | [] => True
  | t :: rest => Forall (λ u, t ≤ u) rest ∧ nondecreasing rest
  end.

End scheduler.

(** ** Package worker *)

Module worker.
Import utils queue.

(** A Go [int] on a 64-bit platform, and [int64]: the value a result
    wraps around to. *)
Definition max_int : Z := 2 ^ 63 - 1.
Definition min_int : Z := - 2 ^ 63.
Definition wrap_int (z : Z) : Z := (z + 2 ^ 63) mod 2 ^ 64 - 2 ^ 63.

(** [time.Second], in nanoseconds. *)
Definition Second : Z := 1000000000.

(** [handleJob] (after its 500 ms of sleep): an error when the payload's
    ["to"] is ["error@error.com"], [nil] otherwise. A key that is absent
    reads as the empty string. *)
Definition handleJob (j : Job) : error :=
  if String.eqb (default ""%string (Payload j !! "to"%string))
                "error@error.com"
  then Some "simulated error"%string
  else None.

Section Platform.

(** The result of converting to [int64] the [float64] power of 2 of an
    exponent of 63 or more, which [int64] cannot represent: the Go
    specification leaves the value to the implementation. *)
Variable int64_of_large_float : Z → Z.

(** [time.Duration(math.Pow(2, float64(rc)))]: for an integer [rc] the
    power is computed exactly ([math.Pow] scales the result by the
    exponent); below 1 it truncates to 0, and from 2^63 on it is outside
    [int64]. *)
Definition pow2_duration (rc : Z) : Z :=
  if rc <? 0 then 0
  else if rc <? 63 then 2 ^ rc
  else int64_of_large_float rc.

(** [delay := time.Duration(math.Pow(2, float64(j.RetryCount))) *
    time.Second], a product of two [int64]s. *)
Definition backoff (rc : Z) : Z := wrap_int (pow2_duration rc * Second).

(** [j.RetryCount++] on the worker's copy of the job. *)
Definition bump (j : Job) : Job :=
  mkJob (ID j) (Type_ j) (Payload j) (Priority j)
        (wrap_int (RetryCount j + 1)) (MaxRetries j) (CreatedAt j).

(** What the worker does with the job after [handleJob] returned an
    error: [j.RetryCount++], then, with [j.RetryCount <= j.MaxRetries],
    the goroutine it starts (which sleeps for the delay, then calls
    [AddJob] with its copy of the job), and otherwise the move to the
    dead-letter queue. *)
Inductive failure_action :=
| Retry (delay : Z) (jobCopy : Job)
| DeadLetter (job : Job).

Definition on_failure (j : Job) : failure_action :=
  let j' := bump j in
  if RetryCount j' <=? MaxRetries j' then
    Retry (backoff (RetryCount j')) j'
  else DeadLetter j'.

(** *** The workers, the retry goroutines and the store

    Any number of workers run the loop of [Start] against one store.
    Between two operations of the store a worker holds its job in a
    local variable; the job of each worker that is inside [handleJob] is
    in [running]. [timers] holds, for each retry goroutine that is still
    asleep, its delay and its copy of the job. [handled] records the
    calls of [handleJob], in order. *)
Record System := mkSystem {
  store : JobQueue;
  running : list Job;
  timers : list (Z * Job);
  handled : list Job
}.

(** The body of the loop of [Start], up to the call of [handleJob]:
    [j, err := w.Queue.GetJob()]; with [err != nil] the worker sleeps
    for a second and starts over; with [j.ID != ""] it calls
    [handleJob(j)]; otherwise (the [else] of that test) it sleeps for a
    second and starts over, and the job it took is gone. *)
Definition poll (s : System) : System :=
  match GetJob (store s) with
  | ((_, Some _), _) => s
  | ((j, None), q') =>
      if String.eqb (ID j) "" then
        mkSystem q' (running s) (timers s) (handled s)
      else
        mkSystem q' (running s ++ [j]) (timers s) (handled s ++ [j])
  end.

(** The rest of the body, from the return of [handleJob] in the worker
    whose job is the [i]-th of [running]: with [err == nil] nothing
    more is done with the job; otherwise [on_failure] decides between
    the retry goroutine, started with a copy of [j], and
    [w.Queue.MoveJobToDeadLetterQueue(j)]. *)
Definition finish (i : nat) (s : System) : System :=
  match running s !! i with
  | None => s
  | Some j =>
      match handleJob j with
      | None => mkSystem (store s) (delete i (running s)) (timers s) (handled s)
      | Some _ =>
          match on_failure j with
          | Retry delay jobCopy =>
              mkSystem (store s) (delete i (running s))
                       (timers s ++ [(delay, jobCopy)]) (handled s)
          | DeadLetter j' =>
              mkSystem (MoveJobToDeadLetterQueue (store s) j')
                       (delete i (running s)) (timers s) (handled s)
          end
      end
  end.

(** The [i]-th retry goroutine returns from [time.Sleep(delay)] and
    calls [w.Queue.AddJob(jobCopy)]. Whatever the delay, the goroutine
    may run at any point of the interleaving. *)
Definition fire (i : nat) (s : System) : System :=
  match timers s !! i with
  | None => s
  | Some (_, jobCopy) =>
      mkSystem (AddJob (store s) jobCopy) (running s)
               (delete i (timers s)) (handled s)
  end.

(** A producer, or the poller of the scheduler, adds a job. *)
Definition submit (job : Job) (s : System) : System :=
  mkSystem (AddJob (store s) job) (running s) (timers s) (handled s).

Inductive event :=
| Poll
| Finish (i : nat)
| Fire (i : nat)
| Submit (job : Job).

Definition exec (s : System) (e : event) : System :=
  match e with
  | Poll => poll s
  | Finish i => finish i s
  | Fire i => fire i s
  | Submit job => submit job s
  end.

(** An interleaving of the workers, the retry goroutines and the
    producers. *)
Definition execs (es : list event) (s : System) : System :=
  foldl exec s es.

End Platform.

(** A new store, with workers that wait. *)
Definition idle : System := mkSystem NewQueue [] [] [].

(** The job with another retry count. *)
Definition with_retries (j : Job) (rc : Z) : Job :=
  mkJob (ID j) (Type_ j) (Payload j) (Priority j) rc
        (MaxRetries j) (CreatedAt j).

(** The values of a Go [int]. *)
Definition is_int (z : Z) : Prop := min_int ≤ z ≤ max_int.

(** On amd64 the conversion of a [float64] that is outside [int64]
    yields the smallest [int64]. *)
Definition amd64_large_float (rc : Z) : Z := min_int.

(** The first [k] attempts of a job that is submitted with no retry and
    fails each time: the job as [handleJob] receives it, with retry
    counts 0 to [k - 1]. *)
Definition attempts (j : Job) (k : nat) : list Job :=
  (λ i : nat, with_retries j (Z.of_nat i)) <$> seq 0 k.

(** *** Following one job through the system

    A job is known by its ID. What a system shows of the job [j]: its
    copies in the pending lanes, in the workers, in the retry
    goroutines, in the dead-letter lanes, in the dead-letter lane of the
    priority of [j], and among the calls of [handleJob]. *)
Definition view (j : Job) (s : System)
  : list Job * list Job * list Job * list Job * list Job * list Job :=
  (copies j (service_order (store s)),
   copies j (running s),
   copies j (snd <$> timers s),
   copies j (dead_letter_order (store s)),
   copies j (lane (deadLetterQueue (store s)) (Priority j)),
   copies j (handled s)).

(** The system has no job with the ID of [j]. *)
Definition absent (j : Job) (s : System) : Prop :=
  view j s = ([], [], [], [], [], []).

(** The one copy of [j] is in its lane after [k] failures; in a worker
    for its attempt number [k + 1]; in a retry goroutine after [k]
    failures; in the dead-letter lane of its priority, with a retry
    count of [MaxRetries + 1], after [MaxRetries + 1] attempts. *)
Definition at_lane (j : Job) (k : nat) (s : System) : Prop :=
  Z.of_nat k ≤ MaxRetries j
  ∧ view j s = ([with_retries j (Z.of_nat k)], [], [], [], [], attempts j k).

Definition at_worker (j : Job) (k : nat) (s : System) : Prop :=
  Z.of_nat k ≤ MaxRetries j
  ∧ view j s
    = ([], [with_retries j (Z.of_nat k)], [], [], [], attempts j (S k)).

Definition at_timer (j : Job) (k : nat) (s : System) : Prop :=
  1 ≤ Z.of_nat k ≤ MaxRetries j
  ∧ view j s = ([], [], [with_retries j (Z.of_nat k)], [], [], attempts j k).

Definition at_dead_letter (j : Job) (s : System) : Prop :=
  view j s
  = ([], [], [],
     [with_retries j (MaxRetries j + 1)], [with_retries j (MaxRetries j + 1)],
     attempts j (Z.to_nat (MaxRetries j + 1))).

(** The events of the others: no producer adds a job with the ID of [j]
    (IDs are taken to be unique). *)
Definition foreign (j : Job) (e : event) : Prop :=
  match e with
  | Submit job => ID job ≠ ID j
  | _ => True
  end.


(** *** Any jobs, through the system

    The jobs the producers of an interleaving add. *)
Definition submitted (es : list event) : list Job :=
  flat_map (λ e, match e with Submit job => [job] | _ => [] end) es.

(** Each pending job satisfies [S], the job of each worker [R], the job
    of each retry goroutine [W], each dead-letter job [D] and the
    argument of each call of [handleJob] [H]. *)
Definition all_jobs (S R W D H : Job → Prop) (s : System) : Prop :=
  Forall S (service_order (store s))
  ∧ Forall R (running s)
  ∧ Forall W (snd <$> timers s)
  ∧ Forall D (dead_letter_order (store s))
  ∧ Forall H (handled s).

(** The producer's job satisfies [S]. *)
Definition allowed (S : Job → Prop) (e : event) : Prop :=
  match e with Submit job => S job | _ => True end.

(** The job is a job of the slice, but for its retry count. *)
Definition one_of (jobs : list Job) (x : Job) : Prop :=
  ∃ y, y ∈ jobs ∧ x = with_retries y (RetryCount x).

(** The one copy of a job [j] is pending and was not attempted; it is in
    a worker for its one attempt; it was attempted once and is nowhere
    any more. *)
Definition queued_once (j : Job) (s : System) : Prop :=
  view j s = ([j], [], [], [], [], []).

Definition in_hand (j : Job) (s : System) : Prop :=
  view j s = ([], [j], [], [], [], [j]).

Definition handled_once (j : Job) (s : System) : Prop :=
  view j s = ([], [], [], [], [], [j]).


(** The jobs a system holds, and the arguments of the calls of
    [handleJob] it saw. *)
Definition held (s : System) : list Job :=
  service_order (store s) ++ running s ++ (snd <$> timers s)
  ++ dead_letter_order (store s) ++ handled s.


(** The number of jobs a system holds: pending, in the workers, in the
    retry goroutines and in the dead-letter queue. *)
Definition population (s : System) : nat :=
  (length (service_order (store s)) + length (running s)
   + length (timers s) + length (dead_letter_order (store s)))%nat.

End worker.

(** * The command line (package main) *)

Module main.
Import utils.

(** The job the action of [enqueue] builds from the flags [to],
    [priority] and [retries], the UUID it draws and the reading of the
    clock: the priority is [Low] unless the flag is ["high"]; the retry
    count is left at zero. *)
Definition enqueue_job (id : string) (created : Z) (to priority : string)
    (retries : Z) : Job :=
  let p := if String.eqb priority "high" then High else Low in
  mkJob id "email" {[ "to"%string := to ]} p 0 retries created.

(** [time.Duration(delay) * time.Second], a product of two [int64]s. *)
Definition seconds (delay : Z) : Z := worker.wrap_int (delay * worker.Second).

(** The action of [enqueue] on the store and the scheduler of the
    package (the scheduler holds the pointer to the store): with a
    [delay] flag above zero the job goes to the scheduler, [now] being
    the clock reading in [Scheduler]; otherwise it is added to the
    store. *)
Definition enqueue (id : string) (created now : Z) (to priority : string)
    (retries delay : Z) (s : scheduler.Scheduler) : scheduler.Scheduler :=
  let j := enqueue_job id created to priority retries in
  if 0 <? delay then scheduler.Scheduler_Scheduler now s j (seconds delay)
  else scheduler.mkScheduler (scheduler.heap s)
                             (queue.AddJob (scheduler.queue s) j).

(** The largest [delay] flag whose duration an [int64] holds. *)
Definition max_delay : Z := 9223372036.

End main.

(** ** Sample jobs and states *)

Module samples.
Import utils.

Definition payload_to (address : string) : gmap string string :=
  {[ "to"%string := address ]}.

Definition job_a : Job := mkJob "a" "email" (payload_to "a@example.com") High 0 3 0.
Definition job_b : Job := mkJob "b" "email" (payload_to "b@example.com") Medium 0 3 0.
Definition job_c : Job := mkJob "c" "email" (payload_to "c@example.com") Low 0 3 0.
Definition job_d : Job := mkJob "d" "email" (payload_to "d@example.com") High 0 3 0.

(** A job whose handler always fails, with one retry. *)
Definition job_x : Job := mkJob "x" "email" (payload_to "error@error.com") High 0 1 0.

(** The same with an empty ID. *)
Definition job_anonymous : Job :=
  mkJob "" "email" (payload_to "error@error.com") High 0 1 0.

(** A job whose priority is none of the three. *)
Definition job_unknown : Job := mkJob "u" "email" (payload_to "u@example.com") 7 0 3 0.

(** A failing job that has already been retried 33 times out of 40, and
    one whose retry count and maximum of retries are the largest
    [int]. *)
Definition job_late : Job :=
  mkJob "late" "email" (payload_to "error@error.com") High 33 40 0.
Definition job_saturated : Job :=
  mkJob "sat" "email" (payload_to "error@error.com") High
        (2 ^ 63 - 1) (2 ^ 63 - 1) 0.

(** A scheduler with two entries, due at times 1 and 2. *)
Definition backlog : scheduler.Scheduler :=
  scheduler.run [scheduler.OpSchedule 0 job_a 1; scheduler.OpSchedule 0 job_b 2]
                (scheduler.NewScheduler queue.NewQueue).

End samples.

(** * Properties of the priority store *)

Module queue_props.
Import utils queue.

(** ** Lanes of a map of slices *)

Lemma lane_insert (m : gmap Z (list Job)) (p : Z) (l : list Job) :
  lane (<[p := l]> m) p = l.
Proof. unfold lane. by rewrite lookup_insert_eq. Qed.

Lemma lane_insert_ne (m : gmap Z (list Job)) (p p' : Z) (l : list Job) :
  p ≠ p' → lane (<[p := l]> m) p' = lane m p'.
Proof. intros Hne. unfold lane. by rewrite lookup_insert_ne. Qed.

Lemma lane_insert_same (m : gmap Z (list Job)) (p p' : Z) :
  lane (<[p := lane m p]> m) p' = lane m p'.
Proof.
  destruct (decide (p = p')) as [->|Hne].
  - apply lane_insert.
  - by apply lane_insert_ne.
Qed.

Lemma known_priority_cases (p : Z) :
  known_priority p → p = 1 ∨ p = 2 ∨ p = 3.
Proof. unfold known_priority, High, Medium, Low. tauto. Qed.

Lemma unknown_priority_tests (p : Z) :
  ¬ known_priority p →
  (p =? High) = false ∧ (p =? Medium) = false ∧ (p =? Low) = false.
Proof.
  unfold known_priority. intros Hp.
  repeat split; apply Z.eqb_neq; intros ->; tauto.
Qed.

Lemma insert_lane_id (m : gmap Z (list Job)) (p : Z) :
  is_Some (m !! p) → <[p := lane m p]> m = m.
Proof.
  intros [l Hl]. apply insert_id. unfold lane. by rewrite Hl.
Qed.

(** ** RemoveJob *)

Lemma RemoveJob_absent (jobs : list Job) (job : Job) :
  no_entry_with_ID job jobs → RemoveJob jobs job = jobs.
Proof.
  induction 1 as [|j rest Hj _ IH]; simpl; [done|].
  apply String.eqb_neq in Hj. rewrite Hj. by rewrite IH.
Qed.

Lemma RemoveJob_first (before after : list Job) (j job : Job) :
  no_entry_with_ID job before → ID j = ID job →
  RemoveJob (before ++ j :: after) job = before ++ after.
Proof.
  intros Hbefore Hj.
  induction Hbefore as [|x rest Hx _ IH]; simpl.
  - apply String.eqb_eq in Hj. by rewrite Hj.
  - apply String.eqb_neq in Hx. rewrite Hx. by rewrite IH.
Qed.

Lemma RemoveJob_length (jobs : list Job) (job : Job) :
  (length jobs - 1 ≤ length (RemoveJob jobs job) ≤ length jobs)%nat.
Proof.
  induction jobs as [|j rest IH]; simpl; [lia|].
  destruct (String.eqb (ID j) (ID job)); simpl; lia.
Qed.

(** Either no entry has the ID, or the lane splits at the first one. *)
Lemma first_entry_with_ID (jobs : list Job) (job : Job) :
  no_entry_with_ID job jobs ∨
  ∃ before j after,
    jobs = before ++ j :: after ∧ no_entry_with_ID job before ∧ ID j = ID job.
Proof.
  induction jobs as [|x rest IH].
  - left. constructor.
  - destruct (String.eqb_spec (ID x) (ID job)) as [Heq|Hne].
    + right. exists [], x, rest. repeat split; [constructor | done].
    + destruct IH as [Habs | (before & j & after & -> & Hb & Hj)].
      * left. by constructor.
      * right. exists (x :: before), j, after.
        repeat split; [by constructor | done].
Qed.

(** ** AddJob and GetJob *)

Lemma of_priority_cons (p : Z) (j : Job) (jobs : list Job) :
  of_priority p (j :: jobs) =
  (if decide (Priority j = p) then [j] else []) ++ of_priority p jobs.
Proof.
  unfold of_priority. rewrite filter_cons. by destruct (decide _).
Qed.

Lemma of_priority_nil (p : Z) : of_priority p [] = [].
Proof. reflexivity. Qed.

Lemma AddJob_lane (q : JobQueue) (j : Job) (p : Z) :
  known_priority (Priority j) →
  lane (queue (AddJob q j)) p = lane (queue q) p ++ of_priority p [j].
Proof.
  intros Hk. apply known_priority_cases in Hk.
  rewrite of_priority_cons, of_priority_nil, app_nil_r.
  unfold AddJob, High, Medium, Low.
  destruct Hk as [Hp|[Hp|Hp]]; rewrite Hp; simpl;
    (destruct (decide (_ = p)) as [<-|Hne];
     [by rewrite lane_insert | rewrite lane_insert_ne by done; by rewrite app_nil_r]).
Qed.

Lemma AddJob_deadLetterQueue (q : JobQueue) (j : Job) :
  deadLetterQueue (AddJob q j) = deadLetterQueue q.
Proof.
  unfold AddJob. by repeat (destruct (_ =? _); [done|]).
Qed.

Lemma AddJobs_lane (jobs : list Job) (q : JobQueue) (p : Z) :
  Forall (λ j, known_priority (Priority j)) jobs →
  lane (queue (AddJobs q jobs)) p = lane (queue q) p ++ of_priority p jobs.
Proof.
  intros Hall. revert q.
  induction Hall as [|j rest Hj _ IH]; intros q; simpl.
  - by rewrite of_priority_nil, app_nil_r.
  - unfold AddJobs in *. simpl. rewrite IH, AddJob_lane by done.
    rewrite <- app_assoc. f_equal.
    rewrite (of_priority_cons p j rest), (of_priority_cons p j []).
    by rewrite of_priority_nil, app_nil_r.
Qed.

Lemma of_priority_lengths (jobs : list Job) :
  Forall (λ j, known_priority (Priority j)) jobs →
  (length (of_priority High jobs) + length (of_priority Medium jobs)
   + length (of_priority Low jobs))%nat = length jobs.
Proof.
  induction 1 as [|j rest Hj _ IH]; [done|].
  rewrite !of_priority_cons, !length_app, length_cons, <- IH.
  apply known_priority_cases in Hj. unfold High, Medium, Low.
  destruct Hj as [Hp|[Hp|Hp]]; rewrite Hp;
    repeat (destruct (decide _); try lia); simpl; lia.
Qed.

Lemma GetJob_some (q : JobQueue) (j : Job) (rest : list Job) :
  service_order q = j :: rest →
  ∃ q', GetJob q = ((j, None), q') ∧ service_order q' = rest.
Proof.
  unfold service_order, GetJob. intros Hso.
  destruct (lane (queue q) High) as [|h hs] eqn:HH.
  - destruct (lane (queue q) Medium) as [|m ms] eqn:HM.
    + destruct (lane (queue q) Low) as [|l ls] eqn:HL; [done|].
      simpl in Hso. injection Hso as -> ->.
      eexists; split; [done|]. simpl.
      rewrite lane_insert, !lane_insert_ne by done. by rewrite HH, HM.
    + simpl in Hso. injection Hso as -> <-.
      eexists; split; [done|]. simpl.
      rewrite lane_insert, !lane_insert_ne by done. by rewrite HH.
  - simpl in Hso. injection Hso as -> <-.
    eexists; split; [done|]. simpl.
    by rewrite lane_insert, !lane_insert_ne by done.
Qed.

Lemma GetJob_none (q : JobQueue) :
  service_order q = [] → GetJob q = ((zeroJob, no_job_found), q).
Proof.
  unfold service_order, GetJob. intros Hso.
  destruct (lane (queue q) High); [|done].
  destruct (lane (queue q) Medium); [|done].
  by destruct (lane (queue q) Low).
Qed.

Lemma drain_service_order (n : nat) (q : JobQueue) :
  fst (drain n q) = take n (service_order q) ∧
  service_order (snd (drain n q)) = drop n (service_order q).
Proof.
  revert q. induction n as [|n IH]; intros q; [done|].
  simpl. destruct (service_order q) as [|j rest] eqn:Hso.
  - rewrite (GetJob_none q Hso). simpl. by rewrite Hso.
  - destruct (GetJob_some q j rest Hso) as (q' & -> & Hrest).
    specialize (IH q'). destruct (drain n q') as [js q''].
    simpl in *. destruct IH as [-> ->]. by rewrite Hrest.
Qed.

Lemma GetDeadLetterJob_some (q : JobQueue) (j : Job) (rest : list Job) :
  dead_letter_order q = j :: rest →
  ∃ q', GetDeadLetterJob q = ((j, None), q') ∧ dead_letter_order q' = rest
        ∧ queue q' = queue q.
Proof.
  unfold dead_letter_order, GetDeadLetterJob. intros Hso.
  destruct (lane (deadLetterQueue q) High) as [|h hs] eqn:HH.
  - destruct (lane (deadLetterQueue q) Medium) as [|m ms] eqn:HM.
    + destruct (lane (deadLetterQueue q) Low) as [|l ls] eqn:HL; [done|].
      simpl in Hso. injection Hso as -> ->.
      eexists; split; [done|]. simpl. split; [|done].
      rewrite lane_insert, !lane_insert_ne by done. by rewrite HH, HM.
    + simpl in Hso. injection Hso as -> <-.
      eexists; split; [done|]. simpl. split; [|done].
      rewrite lane_insert, !lane_insert_ne by done. by rewrite HH.
  - simpl in Hso. injection Hso as -> <-.
    eexists; split; [done|]. simpl. split; [|done].
    by rewrite lane_insert, !lane_insert_ne by done.
Qed.

Lemma GetDeadLetterJob_none (q : JobQueue) :
  dead_letter_order q = [] → GetDeadLetterJob q = ((zeroJob, no_job_found), q).
Proof.
  unfold dead_letter_order, GetDeadLetterJob. intros Hso.
  destruct (lane (deadLetterQueue q) High); [|done].
  destruct (lane (deadLetterQueue q) Medium); [|done].
  by destruct (lane (deadLetterQueue q) Low).
Qed.

Lemma three_lanes_empty (a b c : list Job) :
  a ++ b ++ c = [] ↔ a = [] ∧ b = [] ∧ c = [].
Proof.
  split.
  - intros H. apply app_eq_nil in H as [-> H].
    apply app_eq_nil in H as [-> ->]. done.
  - by intros (-> & -> & ->).
Qed.

Lemma GetJob_deadLetterQueue (q : JobQueue) :
  deadLetterQueue (snd (GetJob q)) = deadLetterQueue q.
Proof.
  unfold GetJob.
  destruct (lane (queue q) High); [|done].
  destruct (lane (queue q) Medium); [|done].
  by destruct (lane (queue q) Low).
Qed.

(** ** MoveJobToDeadLetterQueue, lane by lane *)

Lemma MoveJobToDeadLetterQueue_lanes (q : JobQueue) (job : Job) (p : Z) :
  known_priority (Priority job) →
  lane (queue (MoveJobToDeadLetterQueue q job)) p
  = (if decide (p = Priority job) then RemoveJob (lane (queue q) p) job
     else lane (queue q) p)
  ∧ lane (deadLetterQueue (MoveJobToDeadLetterQueue q job)) p
    = lane (deadLetterQueue q) p
      ++ (if decide (p = Priority job) then [job] else []).
Proof.
  intros Hk. unfold MoveJobToDeadLetterQueue, High, Medium, Low.
  destruct (known_priority_cases _ Hk) as [Hp|[Hp|Hp]]; rewrite Hp; simpl;
    (destruct (decide (p = _)) as [->|Hne];
     [by rewrite !lane_insert
     |rewrite !lane_insert_ne by done; by rewrite app_nil_r]).
Qed.

(** ** The copies of a job in the lanes *)

Lemma copies_app (j : Job) (l l' : list Job) :
  copies j (l ++ l') = copies j l ++ copies j l'.
Proof. apply filter_app. Qed.

Lemma copies_cons_mine (j x : Job) (l : list Job) :
  ID x = ID j → copies j (x :: l) = x :: copies j l.
Proof. intros. unfold copies. by rewrite filter_cons_True. Qed.

Lemma copies_cons_foreign (j x : Job) (l : list Job) :
  ID x ≠ ID j → copies j (x :: l) = copies j l.
Proof. intros. unfold copies. by rewrite filter_cons_False. Qed.

Lemma copies_snoc_mine (j x : Job) (l : list Job) :
  ID x = ID j → copies j (l ++ [x]) = copies j l ++ [x].
Proof. intros. by rewrite copies_app, copies_cons_mine. Qed.

Lemma copies_snoc_foreign (j x : Job) (l : list Job) :
  ID x ≠ ID j → copies j (l ++ [x]) = copies j l.
Proof. intros. by rewrite copies_app, copies_cons_foreign, app_nil_r. Qed.

Lemma copies_none (j : Job) (l : list Job) :
  copies j l = [] ↔ no_entry_with_ID j l.
Proof.
  unfold no_entry_with_ID. induction l as [|x l IH]; [by split; constructor|].
  destruct (decide (ID x = ID j)) as [Hx|Hx].
  - rewrite copies_cons_mine by done. split; [done|].
    intros Hall. by inversion Hall.
  - rewrite copies_cons_foreign by done. rewrite IH. split.
    + by constructor.
    + intros Hall. by inversion Hall.
Qed.

(** A slice with one copy splits around it. *)
Lemma copies_single (j x : Job) (l : list Job) :
  copies j l = [x] →
  ∃ before after,
    l = before ++ x :: after ∧ copies j before = [] ∧ copies j after = [].
Proof.
  induction l as [|y l IH]; [done|].
  destruct (decide (ID y = ID j)) as [Hy|Hy].
  - rewrite copies_cons_mine by done. intros [= -> Hrest].
    by exists [], l.
  - rewrite copies_cons_foreign by done. intros Hl.
    destruct (IH Hl) as (before & after & -> & Hb & Ha).
    exists (y :: before), after. by rewrite copies_cons_foreign.
Qed.

Lemma copies_lookup (j x : Job) (l : list Job) (i : nat) :
  l !! i = Some x → ID x = ID j →
  copies j l = copies j (take i l) ++ x :: copies j (drop (S i) l).
Proof.
  intros Hi Hx. rewrite <- (take_drop_middle l i x Hi) at 1.
  by rewrite copies_app, copies_cons_mine.
Qed.

Lemma copies_delete_foreign (j x : Job) (l : list Job) (i : nat) :
  l !! i = Some x → ID x ≠ ID j → copies j (delete i l) = copies j l.
Proof.
  intros Hi Hx. rewrite delete_take_drop.
  rewrite <- (take_drop_middle l i x Hi) at 3.
  by rewrite !copies_app, copies_cons_foreign.
Qed.

Lemma copies_delete_single (j x y : Job) (l : list Job) (i : nat) :
  l !! i = Some x → ID x = ID j → copies j l = [y] →
  x = y ∧ copies j (delete i l) = [].
Proof.
  intros Hi Hx Hl. rewrite (copies_lookup j x l i Hi Hx) in Hl.
  rewrite delete_take_drop, copies_app.
  destruct (copies j (take i l)) as [|z zs]; simpl in Hl.
  - injection Hl as -> ->. done.
  - injection Hl as _ Hl. by destruct zs.
Qed.

Lemma copies_lookup_none (j x : Job) (l : list Job) (i : nat) :
  l !! i = Some x → copies j l = [] → ID x ≠ ID j.
Proof.
  intros Hi Hl Hx. rewrite (copies_lookup j x l i Hi Hx) in Hl.
  by destruct (copies j (take i l)).
Qed.

Lemma copies_RemoveJob (j x : Job) (l : list Job) :
  (ID x = ID j → copies j l = []) →
  copies j (RemoveJob l x) = copies j l.
Proof.
  induction l as [|y l IH]; intros Hx; [done|]. simpl.
  destruct (String.eqb_spec (ID y) (ID x)) as [Hyx|Hyx].
  - destruct (decide (ID y = ID j)) as [Hy|Hy].
    + rewrite copies_cons_mine in Hx by done.
      by specialize (Hx ltac:(congruence)).
    + by rewrite copies_cons_foreign.
  - destruct (decide (ID y = ID j)) as [Hy|Hy].
    + rewrite !copies_cons_mine by done. rewrite IH; [done|].
      intros Hxj. rewrite copies_cons_mine in Hx by done.
      by specialize (Hx Hxj).
    + rewrite !copies_cons_foreign by done. apply IH.
      intros Hxj. specialize (Hx Hxj).
      by rewrite copies_cons_foreign in Hx.
Qed.

Lemma copies_service_order (j : Job) (q : JobQueue) :
  copies j (service_order q)
  = copies j (lane (queue q) High) ++ copies j (lane (queue q) Medium)
    ++ copies j (lane (queue q) Low).
Proof. unfold service_order. by rewrite !copies_app. Qed.

Lemma copies_dead_letter_order (j : Job) (q : JobQueue) :
  copies j (dead_letter_order q)
  = copies j (lane (deadLetterQueue q) High)
    ++ copies j (lane (deadLetterQueue q) Medium)
    ++ copies j (lane (deadLetterQueue q) Low).
Proof. unfold dead_letter_order. by rewrite !copies_app. Qed.

Lemma of_priority_single (p : Z) (x : Job) :
  of_priority p [x] = if decide (Priority x = p) then [x] else [].
Proof. by rewrite of_priority_cons, of_priority_nil, app_nil_r. Qed.

Lemma AddJob_unknown (q : JobQueue) (x : Job) :
  ¬ known_priority (Priority x) → AddJob q x = q.
Proof.
  intros Hp. apply unknown_priority_tests in Hp as (HH & HM & HL).
  unfold AddJob. by rewrite HH, HM, HL.
Qed.

Lemma MoveJobToDeadLetterQueue_unknown (q : JobQueue) (x : Job) :
  ¬ known_priority (Priority x) → MoveJobToDeadLetterQueue q x = q.
Proof.
  intros Hp. apply unknown_priority_tests in Hp as (HH & HM & HL).
  unfold MoveJobToDeadLetterQueue. by rewrite HH, HM, HL.
Qed.

Lemma pending_AddJob_foreign (j x : Job) (q : JobQueue) :
  ID x ≠ ID j →
  copies j (service_order (AddJob q x)) = copies j (service_order q).
Proof.
  intros Hx. destruct (decide (known_priority (Priority x))) as [Hk|Hk].
  - rewrite !copies_service_order, !AddJob_lane, !copies_app by done.
    rewrite !of_priority_single.
    by repeat (destruct (decide (Priority x = _));
               rewrite ?copies_cons_foreign, ?app_nil_r by done).
  - by rewrite AddJob_unknown.
Qed.

Lemma pending_AddJob_mine (j x : Job) (q : JobQueue) :
  ID x = ID j → known_priority (Priority x) →
  copies j (service_order q) = [] →
  copies j (service_order (AddJob q x)) = [x].
Proof.
  intros Hx Hk. rewrite !copies_service_order.
  intros (HH & HM & HL)%three_lanes_empty.
  rewrite !AddJob_lane, !copies_app, HH, HM, HL by done.
  rewrite !of_priority_single. unfold High, Medium, Low.
  destruct (known_priority_cases _ Hk) as [Hp|[Hp|Hp]]; rewrite Hp;
    repeat (destruct (decide _); try lia);
    by rewrite copies_cons_mine.
Qed.

Lemma dead_AddJob (q : JobQueue) (x : Job) :
  dead_letter_order (AddJob q x) = dead_letter_order q.
Proof. unfold dead_letter_order. by rewrite AddJob_deadLetterQueue. Qed.

Lemma pending_MoveJobToDeadLetterQueue (j x : Job) (q : JobQueue) :
  (ID x = ID j → copies j (service_order q) = []) →
  copies j (service_order (MoveJobToDeadLetterQueue q x))
  = copies j (service_order q).
Proof.
  intros Hx. destruct (decide (known_priority (Priority x))) as [Hk|Hk].
  - assert (Hlane : ∀ p, copies j (lane (queue (MoveJobToDeadLetterQueue q x)) p)
                         = copies j (lane (queue q) p)).
    { intros p.
      rewrite (proj1 (MoveJobToDeadLetterQueue_lanes q x p Hk)).
      destruct (decide (p = Priority x)); [|done].
      apply copies_RemoveJob. intros Hxj. specialize (Hx Hxj).
      rewrite copies_service_order in Hx.
      apply three_lanes_empty in Hx as (HH & HM & HL).
      destruct (known_priority_cases _ Hk) as [Hp|[Hp|Hp]]; by subst p; rewrite Hp. }
    by rewrite !copies_service_order, !Hlane.
  - by rewrite MoveJobToDeadLetterQueue_unknown.
Qed.

Lemma dead_MoveJobToDeadLetterQueue_foreign (j x : Job) (q : JobQueue) (p : Z) :
  ID x ≠ ID j →
  copies j (dead_letter_order (MoveJobToDeadLetterQueue q x))
  = copies j (dead_letter_order q)
  ∧ copies j (lane (deadLetterQueue (MoveJobToDeadLetterQueue q x)) p)
    = copies j (lane (deadLetterQueue q) p).
Proof.
  intros Hx. destruct (decide (known_priority (Priority x))) as [Hk|Hk].
  - assert (Hlane : ∀ p', copies j (lane (deadLetterQueue
                                            (MoveJobToDeadLetterQueue q x)) p')
                          = copies j (lane (deadLetterQueue q) p')).
    { intros p'. rewrite (proj2 (MoveJobToDeadLetterQueue_lanes q x p' Hk)).
      destruct (decide (p' = Priority x)); [|by rewrite app_nil_r].
      by rewrite copies_snoc_foreign. }
    by rewrite !copies_dead_letter_order, !Hlane.
  - by rewrite MoveJobToDeadLetterQueue_unknown.
Qed.

Lemma dead_MoveJobToDeadLetterQueue_mine (j x : Job) (q : JobQueue) :
  ID x = ID j → known_priority (Priority x) →
  copies j (dead_letter_order q) = [] →
  copies j (dead_letter_order (MoveJobToDeadLetterQueue q x)) = [x]
  ∧ copies j (lane (deadLetterQueue (MoveJobToDeadLetterQueue q x)) (Priority x))
    = [x].
Proof.
  intros Hx Hk. rewrite !copies_dead_letter_order.
  intros (HH & HM & HL)%three_lanes_empty.
  rewrite !(proj2 (MoveJobToDeadLetterQueue_lanes q x _ Hk)), !copies_app.
  rewrite HH, HM, HL. unfold High, Medium, Low in *.
  destruct (known_priority_cases _ Hk) as [Hp|[Hp|Hp]]; rewrite Hp in *;
    rewrite ?HH, ?HM, ?HL;
    repeat (destruct (decide _); try lia);
    by rewrite copies_cons_mine.
Qed.

(** ** The claims about the store *)

(** C1. Jobs with priorities among High, Medium and Low are added to a new
    store in any order; then [length jobs] calls of [GetJob] return every
    High job, then every Medium job, then every Low job, each group in
    the order in which its jobs were added; any smaller number of calls
    returns a prefix of that sequence; and the call after the last job
    returns the error. *)
Theorem GetJob_priority_then_fifo (jobs : list Job) :
  Forall (λ j, known_priority (Priority j)) jobs →
  let q := AddJobs NewQueue jobs in
  let expected :=
    of_priority High jobs ++ of_priority Medium jobs ++ of_priority Low jobs in
  fst (drain (length jobs) q) = expected
  ∧ (∀ n, fst (drain n q) = take n expected)
  ∧ snd (fst (GetJob (snd (drain (length jobs) q)))) = no_job_found.
Proof.
  intros Hall q expected.
  assert (Hso : service_order q = expected).
  { unfold service_order, q. by rewrite !AddJobs_lane. }
  assert (Hlen : length expected = length jobs).
  { unfold expected. rewrite !length_app, Nat.add_assoc.
    by apply of_priority_lengths. }
  split; [|split].
  - rewrite (proj1 (drain_service_order _ _)), Hso, <- Hlen.
    apply firstn_all.
  - intros n. by rewrite (proj1 (drain_service_order _ _)), Hso.
  - rewrite GetJob_none; [done|].
    rewrite (proj2 (drain_service_order _ _)), Hso, <- Hlen.
    apply drop_all.
Qed.

(** C4. For a job of priority High, Medium or Low,
    [MoveJobToDeadLetterQueue] takes the first entry with the job's ID
    out of the pending lane of that priority (and leaves the lane as it
    is when it has none), and appends the job once to the dead-letter
    lane of that priority, whether an entry was found or not: the
    pending lane loses at most one entry, the dead-letter lane gains
    exactly one, and no other lane changes. *)
Theorem MoveJobToDeadLetterQueue_moves (q : JobQueue) (job : Job) :
  known_priority (Priority job) →
  let p := Priority job in
  let q' := MoveJobToDeadLetterQueue q job in
  lane (queue q') p = RemoveJob (lane (queue q) p) job
  ∧ (no_entry_with_ID job (lane (queue q) p) →
     lane (queue q') p = lane (queue q) p)
  ∧ (∀ before j after,
       lane (queue q) p = before ++ j :: after →
       no_entry_with_ID job before → ID j = ID job →
       lane (queue q') p = before ++ after)
  ∧ (length (lane (queue q) p) - 1 ≤ length (lane (queue q') p)
     ≤ length (lane (queue q) p))%nat
  ∧ lane (deadLetterQueue q') p = lane (deadLetterQueue q) p ++ [job]
  ∧ length (lane (deadLetterQueue q') p)
    = S (length (lane (deadLetterQueue q) p))
  ∧ (∀ p', p' ≠ p →
       lane (queue q') p' = lane (queue q) p'
       ∧ lane (deadLetterQueue q') p' = lane (deadLetterQueue q) p').
Proof.
  intros Hk p q'.
  assert (Hpend : lane (queue q') p = RemoveJob (lane (queue q) p) job).
  { unfold q', p, MoveJobToDeadLetterQueue, High, Medium, Low.
    destruct (known_priority_cases _ Hk) as [Hp|[Hp|Hp]]; rewrite Hp; simpl;
      apply lane_insert. }
  assert (Hdead : lane (deadLetterQueue q') p = lane (deadLetterQueue q) p ++ [job]).
  { unfold q', p, MoveJobToDeadLetterQueue, High, Medium, Low.
    destruct (known_priority_cases _ Hk) as [Hp|[Hp|Hp]]; rewrite Hp; simpl;
      apply lane_insert. }
  repeat split.
  - done.
  - intros Habs. rewrite Hpend. by apply RemoveJob_absent.
  - intros before j after Hsplit Hb Hj. rewrite Hpend, Hsplit.
    by apply RemoveJob_first.
  - rewrite Hpend. apply RemoveJob_length.
  - rewrite Hpend. apply RemoveJob_length.
  - done.
  - rewrite Hdead, length_app. simpl. lia.
  - unfold q', MoveJobToDeadLetterQueue, High, Medium, Low. fold p.
    destruct (known_priority_cases _ Hk) as [Hp|[Hp|Hp]]; fold p in Hp;
      rewrite Hp in *; simpl; by apply lane_insert_ne.
  - unfold q', MoveJobToDeadLetterQueue, High, Medium, Low. fold p.
    destruct (known_priority_cases _ Hk) as [Hp|[Hp|Hp]]; fold p in Hp;
      rewrite Hp in *; simpl; by apply lane_insert_ne.
Qed.

(** C5. [GetJob] returns an error exactly when the three pending lanes are
    empty, and then the store is the one it was called on; otherwise it
    returns, with no error, the head of the first non-empty lane and
    removes it. [GetDeadLetterJob] does the same on the dead-letter
    lanes. *)
Theorem Get_error_iff_all_lanes_empty (q : JobQueue) :
  (snd (fst (GetJob q)) ≠ None ↔
     lane (queue q) High = [] ∧ lane (queue q) Medium = []
     ∧ lane (queue q) Low = [])
  ∧ (snd (fst (GetJob q)) ≠ None → snd (GetJob q) = q)
  ∧ (snd (fst (GetJob q)) = None →
     service_order q = fst (fst (GetJob q)) :: service_order (snd (GetJob q)))
  ∧ (snd (fst (GetDeadLetterJob q)) ≠ None ↔
     lane (deadLetterQueue q) High = [] ∧ lane (deadLetterQueue q) Medium = []
     ∧ lane (deadLetterQueue q) Low = [])
  ∧ (snd (fst (GetDeadLetterJob q)) ≠ None → snd (GetDeadLetterJob q) = q)
  ∧ (snd (fst (GetDeadLetterJob q)) = None →
     dead_letter_order q
     = fst (fst (GetDeadLetterJob q))
       :: dead_letter_order (snd (GetDeadLetterJob q))).
Proof.
  split; [|split; [|split; [|split; [|split]]]].
  - rewrite <- three_lanes_empty. fold (service_order q).
    destruct (service_order q) as [|j rest] eqn:Hso.
    + by rewrite (GetJob_none q Hso).
    + destruct (GetJob_some q j rest Hso) as (q' & -> & _). simpl.
      split; [done | discriminate].
  - destruct (service_order q) as [|j rest] eqn:Hso.
    + by rewrite (GetJob_none q Hso).
    + by destruct (GetJob_some q j rest Hso) as (q' & -> & _).
  - destruct (service_order q) as [|j rest] eqn:Hso.
    + by rewrite (GetJob_none q Hso).
    + destruct (GetJob_some q j rest Hso) as (q' & -> & Hrest).
      simpl. by rewrite Hrest.
  - rewrite <- three_lanes_empty. fold (dead_letter_order q).
    destruct (dead_letter_order q) as [|j rest] eqn:Hso.
    + by rewrite (GetDeadLetterJob_none q Hso).
    + destruct (GetDeadLetterJob_some q j rest Hso) as (q' & -> & _). simpl.
      split; [done | discriminate].
  - destruct (dead_letter_order q) as [|j rest] eqn:Hso.
    + by rewrite (GetDeadLetterJob_none q Hso).
    + by destruct (GetDeadLetterJob_some q j rest Hso) as (q' & -> & _).
  - destruct (dead_letter_order q) as [|j rest] eqn:Hso.
    + by rewrite (GetDeadLetterJob_none q Hso).
    + destruct (GetDeadLetterJob_some q j rest Hso) as (q' & -> & Hrest & _).
      simpl. by rewrite Hrest.
Qed.

(** C6. When no entry of the lane of the job's priority has the job's ID,
    [RemoveJobFromQueue] leaves every pending lane with the contents it
    had and the dead-letter map as it was; on a store that has its
    three lanes the result is the store itself. The method returns the
    queue and has no error result. *)
Theorem RemoveJobFromQueue_absent_noop (q : JobQueue) (job : Job) :
  no_entry_with_ID job (lane (queue q) (Priority job)) →
  let q' := RemoveJobFromQueue q job in
  (∀ p, lane (queue q') p = lane (queue q) p)
  ∧ deadLetterQueue q' = deadLetterQueue q
  ∧ (initialised q → q' = q).
Proof.
  intros Habs q'. unfold q', RemoveJobFromQueue.
  destruct (Z.eqb_spec (Priority job) High) as [Hp|_];
    [|destruct (Z.eqb_spec (Priority job) Medium) as [Hp|_];
      [|destruct (Z.eqb_spec (Priority job) Low) as [Hp|_]; [|done]]];
    rewrite Hp in Habs; rewrite (RemoveJob_absent _ _ Habs); simpl;
    (split; [intros p; apply lane_insert_same | split; [done|]]);
    intros Hinit; destruct q as [pend dead]; simpl; f_equal;
    apply insert_lane_id; apply (Hinit _); unfold known_priority; tauto.
Qed.

(** C9. For a job whose priority is none of High, Medium and Low, [AddJob]
    and [MoveJobToDeadLetterQueue] return the store they were given:
    no lane, pending or dead-letter, changes, and neither method has an
    error result: the job is dropped. *)
Theorem unknown_priority_dropped (q : JobQueue) (job : Job) :
  ¬ known_priority (Priority job) →
  AddJob q job = q ∧ MoveJobToDeadLetterQueue q job = q.
Proof.
  intros Hp. apply unknown_priority_tests in Hp as (HH & HM & HL).
  unfold AddJob, MoveJobToDeadLetterQueue. by rewrite HH, HM, HL.
Qed.


(** ** The claims at sample inputs *)

Ltac known_sample :=
  first [ by left | by (right; left) | by (right; right) ].

(** Four jobs added in the order Low, High, Medium, High come out as the
    two High jobs in their order, then the Medium one, then the Low
    one. *)
Lemma GetJob_priority_then_fifo_sample :
  fst (drain 4 (AddJobs NewQueue
                  [samples.job_c; samples.job_a; samples.job_b; samples.job_d]))
  = [samples.job_a; samples.job_d; samples.job_b; samples.job_c].
Proof.
  refine (proj1 (GetJob_priority_then_fifo
                   [samples.job_c; samples.job_a; samples.job_b; samples.job_d]
                   _)).
  repeat (constructor; [known_sample|]). constructor.
Defined.

(** Job [a] is moved out of a High lane that holds [a] and [d]. *)
Lemma MoveJobToDeadLetterQueue_sample :
  let q := MoveJobToDeadLetterQueue
             (AddJobs NewQueue [samples.job_a; samples.job_d]) samples.job_a in
  lane (queue q) High = [samples.job_d]
  ∧ lane (deadLetterQueue q) High = [samples.job_a].
Proof.
  pose proof (MoveJobToDeadLetterQueue_moves
                (AddJobs NewQueue [samples.job_a; samples.job_d]) samples.job_a
                ltac:(known_sample)) as Hmove.
  cbv zeta in Hmove. destruct Hmove as (Hpend & _ & _ & _ & Hdead & _).
  split; [exact Hpend | exact Hdead].
Defined.

(** Job [d] is removed from a store that holds [a] and [b]. *)
Lemma RemoveJobFromQueue_absent_sample :
  RemoveJobFromQueue (AddJobs NewQueue [samples.job_a; samples.job_b])
                     samples.job_d
  = AddJobs NewQueue [samples.job_a; samples.job_b].
Proof.
  refine (proj2 (proj2 (RemoveJobFromQueue_absent_noop
                          (AddJobs NewQueue [samples.job_a; samples.job_b])
                          samples.job_d _)) _).
  - repeat constructor. discriminate.
  - intros p Hp. destruct Hp as [->|[->| ->]]; split; by eexists.
Defined.

(** A job of priority 7 is added to, and moved in, a new store. *)
Lemma unknown_priority_dropped_sample :
  AddJob NewQueue samples.job_unknown = NewQueue
  ∧ MoveJobToDeadLetterQueue NewQueue samples.job_unknown = NewQueue.
Proof.
  apply (unknown_priority_dropped NewQueue samples.job_unknown).
  intros [H|[H|H]]; discriminate H.
Defined.

End queue_props.

(** * Properties of the scheduler's heap *)

Module scheduler_props.
Import scheduler.

(** Parents and children are related by a division by 2: [lia] is made to
    read divisions by a constant. *)
Ltac Zify.zify_post_hook ::= Z.div_mod_to_equations.

(** ** Swap and Less *)

Lemma transpose_l (i j : nat) : transpose i j j = i.
Proof. unfold transpose. by rewrite decide_True. Qed.

Lemma transpose_r (i j : nat) : transpose i j i = j.
Proof.
  unfold transpose. destruct (decide (i = j)) as [->|]; [done|].
  by rewrite decide_True.
Qed.

Lemma transpose_other (i j k : nat) : k ≠ i → k ≠ j → transpose i j k = k.
Proof. intros. unfold transpose. by rewrite !decide_False. Qed.

Lemma Swap_length (h : JobHeap) (i j : nat) : length (Swap h i j) = length h.
Proof.
  unfold Swap. destruct (h !! i); [|done]. destruct (h !! j); [|done].
  by rewrite !length_insert.
Qed.

Lemma entry_set_index (e : ScheduleJob) (i : nat) : entry (set_index e i) = entry e.
Proof. done. Qed.

Lemma Swap_lookup_entry (h : JobHeap) (i j k : nat) :
  (i < length h)%nat → (j < length h)%nat →
  entry <$> Swap h i j !! k = entry <$> h !! transpose i j k.
Proof.
  intros Hi Hj. unfold Swap.
  destruct (lookup_lt_is_Some_2 h i Hi) as [a Ha].
  destruct (lookup_lt_is_Some_2 h j Hj) as [b Hb].
  rewrite Ha, Hb. unfold transpose.
  destruct (decide (k = j)) as [->|Hkj].
  - rewrite list_lookup_insert_eq by (rewrite length_insert; lia).
    by rewrite Ha.
  - rewrite list_lookup_insert_ne by done.
    destruct (decide (k = i)) as [->|Hki].
    + rewrite list_lookup_insert_eq by lia. by rewrite Hb.
    + by rewrite list_lookup_insert_ne.
Qed.

Lemma time_at_entry (h : JobHeap) (k : nat) :
  time_at h k = from_option snd 0 (entry <$> h !! k).
Proof. unfold time_at. by destruct (h !! k). Qed.

Lemma time_at_Swap (h : JobHeap) (i j k : nat) :
  (i < length h)%nat → (j < length h)%nat →
  time_at (Swap h i j) k = time_at h (transpose i j k).
Proof.
  intros Hi Hj. by rewrite !time_at_entry, Swap_lookup_entry.
Qed.

Lemma Swap_lookup_outside (h : JobHeap) (i j k : nat) :
  k ≠ i → k ≠ j → Swap h i j !! k = h !! k.
Proof.
  intros Hi Hj. unfold Swap.
  destruct (h !! i); [|done]. destruct (h !! j); [|done].
  by rewrite !list_lookup_insert_ne.
Qed.

Lemma Less_time_at (h : JobHeap) (i j : nat) :
  (i < length h)%nat → (j < length h)%nat →
  Less h i j = bool_decide (time_at h i < time_at h j).
Proof.
  intros Hi Hj. unfold Less, time_at.
  destruct (lookup_lt_is_Some_2 h i Hi) as [a ->].
  by destruct (lookup_lt_is_Some_2 h j Hj) as [b ->].
Qed.

(** ** The entries of a heap, as a multiset *)

Lemma insert_cons_Permutation {A} (l : list A) (j : nat) (b x : A) :
  l !! j = Some b → b :: <[j := x]> l ≡ₚ x :: l.
Proof.
  revert j. induction l as [|y l IH]; intros [|j] Hb; simplify_eq/=.
  - apply perm_swap.
  - rewrite perm_swap, (IH j Hb). apply perm_swap.
Qed.

Lemma insert_insert_Permutation {A} (l : list A) (i j : nat) (a b : A) :
  l !! i = Some a → l !! j = Some b → <[j := a]> (<[i := b]> l) ≡ₚ l.
Proof.
  revert i j. induction l as [|y l IH]; intros [|i] [|j] Ha Hb; simplify_eq/=.
  - done.
  - by apply insert_cons_Permutation.
  - by apply insert_cons_Permutation.
  - by rewrite (IH i j).
Qed.

Lemma Swap_entries (h : JobHeap) (i j : nat) :
  entry <$> Swap h i j ≡ₚ entry <$> h.
Proof.
  unfold Swap. destruct (h !! i) as [a|] eqn:Ha; [|done].
  destruct (h !! j) as [b|] eqn:Hb; [|done].
  rewrite !list_fmap_insert, !entry_set_index.
  apply insert_insert_Permutation; by rewrite list_lookup_fmap, ?Ha, ?Hb.
Qed.

(** ** The loop of [up] *)

Lemma up_loop_S (fuel : nat) (h : JobHeap) (j : nat) :
  up_loop (S fuel) h j =
  if (((j - 1) / 2)%nat =? j)%nat || negb (Less h j ((j - 1) / 2)) then h
  else up_loop fuel (Swap h ((j - 1) / 2) j) ((j - 1) / 2).
Proof. reflexivity. Qed.

Lemma up_loop_length (fuel : nat) (h : JobHeap) (j : nat) :
  length (up_loop fuel h j) = length h.
Proof.
  revert h j. induction fuel as [|fuel IH]; intros h j; [done|].
  rewrite up_loop_S. destruct (_ || _); [done|]. by rewrite IH, Swap_length.
Qed.

Lemma up_loop_entries (fuel : nat) (h : JobHeap) (j : nat) :
  entry <$> up_loop fuel h j ≡ₚ entry <$> h.
Proof.
  revert h j. induction fuel as [|fuel IH]; intros h j; [done|].
  rewrite up_loop_S. destruct (_ || _); [done|]. by rewrite IH, Swap_entries.
Qed.

(** The counter [up] starts with is never exhausted: any larger one
    gives the same heap. *)
Lemma up_loop_fuel (fuel fuel' : nat) (h : JobHeap) (j : nat) :
  (j < fuel)%nat → (j < fuel')%nat → up_loop fuel h j = up_loop fuel' h j.
Proof.
  revert fuel' h j. induction fuel as [|fuel IH]; intros [|fuel'] h j Hf Hf';
    try lia.
  rewrite !up_loop_S.
  destruct (Nat.eqb_spec ((j - 1) / 2) j) as [|Hne]; [done|].
  destruct (Less h j ((j - 1) / 2)); cbn [orb negb]; [|done].
  apply IH; lia.
Qed.

Lemma up_inv_done (h : JobHeap) (n j : nat) :
  up_inv h n j →
  ((j - 1) / 2)%nat = j ∨ time_at h ((j - 1) / 2) ≤ time_at h j →
  heap_ordered h n.
Proof.
  intros [H1 _] Hstop c Hc.
  destruct (decide (c = j)) as [->|Hcj]; [|by apply H1].
  destruct Hstop as [Hroot|Hle]; [lia|done].
Qed.

Lemma up_inv_step (h : JobHeap) (n j : nat) :
  let i := ((j - 1) / 2)%nat in
  n = length h → (j < n)%nat → i ≠ j →
  time_at h j < time_at h i →
  up_inv h n j → up_inv (Swap h i j) n i.
Proof.
  intros i Hn Hj Hij Hlt [H1 H2].
  assert (Hi : (i < j)%nat) by (unfold i in *; lia).
  split.
  - intros c Hc Hci. rewrite !time_at_Swap by lia.
    destruct (decide (c = j)) as [->|Hcj].
    + fold i. rewrite transpose_l, transpose_r. lia.
    + rewrite (transpose_other i j c) by done.
      destruct (decide (((c - 1) / 2)%nat = j)) as [Hpj|Hpj].
      * rewrite Hpj, transpose_l. apply H2; [done|done|lia].
      * destruct (decide (((c - 1) / 2)%nat = i)) as [Hpi|Hpi].
        -- rewrite Hpi, transpose_r.
           specialize (H1 c Hc Hcj). rewrite Hpi in H1. lia.
        -- rewrite transpose_other by done. by apply H1.
  - intros c Hc Hpc Hi0. rewrite !time_at_Swap by lia.
    rewrite (transpose_other i j ((i - 1) / 2)) by lia.
    assert (Hpi : time_at h ((i - 1) / 2) ≤ time_at h i) by (apply H1; lia).
    destruct (decide (c = j)) as [->|Hcj].
    + by rewrite transpose_l.
    + rewrite transpose_other by lia.
      specialize (H1 c Hc Hcj). rewrite Hpc in H1. lia.
Qed.

Lemma up_loop_ordered (fuel : nat) (h : JobHeap) (j : nat) :
  (j < fuel)%nat → (j < length h)%nat →
  up_inv h (length h) j →
  heap_ordered (up_loop fuel h j) (length h).
Proof.
  revert h j. induction fuel as [|fuel IH]; intros h j Hf Hj Hinv; [lia|].
  rewrite up_loop_S.
  destruct (Nat.eqb_spec ((j - 1) / 2) j) as [Heq|Hne].
  { apply (up_inv_done h _ j); auto. }
  assert (Hi : ((j - 1) / 2 < j)%nat) by lia.
  rewrite Less_time_at by lia.
  destruct (bool_decide_reflect (time_at h j < time_at h ((j - 1) / 2)))
    as [Hlt|Hge]; cbn [negb orb].
  - rewrite <- (Swap_length h ((j - 1) / 2) j).
    apply IH; rewrite ?Swap_length; try lia.
    by apply up_inv_step.
  - apply (up_inv_done h _ j); [done|]. right. lia.
Qed.

(** ** The loop of [down] *)

Lemma down_loop_S (fuel : nat) (h : JobHeap) (i n : nat) :
  down_loop (S fuel) h i n =
  if (n <=? 2 * i + 1)%nat then h
  else if negb (Less h (if (2 * i + 1 + 1 <? n)%nat
                           && Less h (2 * i + 1 + 1) (2 * i + 1)
                        then 2 * i + 1 + 1 else 2 * i + 1)%nat i) then h
  else down_loop fuel
         (Swap h i (if (2 * i + 1 + 1 <? n)%nat
                       && Less h (2 * i + 1 + 1) (2 * i + 1)
                    then 2 * i + 1 + 1 else 2 * i + 1)%nat)
         (if (2 * i + 1 + 1 <? n)%nat && Less h (2 * i + 1 + 1) (2 * i + 1)
          then 2 * i + 1 + 1 else 2 * i + 1)%nat n.
Proof. reflexivity. Qed.

Lemma down_loop_length (fuel : nat) (h : JobHeap) (i n : nat) :
  length (down_loop fuel h i n) = length h.
Proof.
  revert h i. induction fuel as [|fuel IH]; intros h i; [done|].
  rewrite down_loop_S.
  destruct (n <=? _)%nat; [done|]. destruct (negb _); [done|].
  by rewrite IH, Swap_length.
Qed.

Lemma down_loop_entries (fuel : nat) (h : JobHeap) (i n : nat) :
  entry <$> down_loop fuel h i n ≡ₚ entry <$> h.
Proof.
  revert h i. induction fuel as [|fuel IH]; intros h i; [done|].
  rewrite down_loop_S.
  destruct (n <=? _)%nat; [done|]. destruct (negb _); [done|].
  by rewrite IH, Swap_entries.
Qed.

(** [down] leaves the positions from [n] on as they are. *)
Lemma down_loop_outside (fuel : nat) (h : JobHeap) (i n k : nat) :
  (n ≤ k)%nat → down_loop fuel h i n !! k = h !! k.
Proof.
  intros Hk. revert h i. induction fuel as [|fuel IH]; intros h i; [done|].
  rewrite down_loop_S.
  destruct (Nat.leb_spec n (2 * i + 1)) as [|Hj1]; [done|].
  destruct (negb _); [done|].
  rewrite IH. apply Swap_lookup_outside; [lia|].
  destruct (Nat.ltb_spec (2 * i + 1 + 1) n); simpl; [|lia].
  destruct (Less _ _ _); lia.
Qed.

(** The counter [down] starts with is never exhausted. *)
Lemma down_loop_fuel (fuel fuel' : nat) (h : JobHeap) (i n : nat) :
  (n ≤ i + fuel)%nat → (n ≤ i + fuel')%nat →
  down_loop fuel h i n = down_loop fuel' h i n.
Proof.
  revert fuel' h i.
  induction fuel as [|fuel IH]; intros [|fuel'] h i Hf Hf';
    rewrite ?down_loop_S; try done.
  - destruct (Nat.leb_spec n (2 * i + 1)); [done|lia].
  - destruct (Nat.leb_spec n (2 * i + 1)); [done|lia].
  - destruct (Nat.leb_spec n (2 * i + 1)); [done|].
    destruct (negb _); [done|].
    apply IH; destruct (_ && _); lia.
Qed.

Lemma down_inv_leaf (h : JobHeap) (n i : nat) :
  (n ≤ 2 * i + 1)%nat → down_inv h n i → heap_ordered h n.
Proof. intros Hleaf [H1 _] c Hc. apply H1; lia. Qed.

Lemma down_inv_stop (h : JobHeap) (n i j : nat) :
  (∀ c : nat, (0 < c < n)%nat → ((c - 1) / 2)%nat = i →
     time_at h j ≤ time_at h c) →
  time_at h i ≤ time_at h j →
  down_inv h n i → heap_ordered h n.
Proof.
  intros Hmin Hle [H1 _] c Hc.
  destruct (decide (((c - 1) / 2)%nat = i)) as [Hp|Hp]; [|by apply H1].
  rewrite Hp. specialize (Hmin c Hc Hp). lia.
Qed.

Lemma down_inv_step (h : JobHeap) (n i j : nat) :
  (n ≤ length h)%nat → ((j - 1) / 2)%nat = i → (i < j < n)%nat →
  (∀ c : nat, (0 < c < n)%nat → ((c - 1) / 2)%nat = i →
     time_at h j ≤ time_at h c) →
  time_at h j < time_at h i →
  down_inv h n i → down_inv (Swap h i j) n j.
Proof.
  intros Hn Hpj Hij Hmin Hlt [H1 H2]. split.
  - intros c Hc Hp. rewrite !time_at_Swap by lia.
    destruct (decide (((c - 1) / 2)%nat = i)) as [Hpi|Hpi].
    + rewrite Hpi, transpose_r.
      destruct (decide (c = j)) as [->|Hcj].
      * rewrite transpose_l. lia.
      * rewrite transpose_other by lia. by apply Hmin.
    + rewrite (transpose_other i j ((c - 1) / 2)) by done.
      destruct (decide (c = i)) as [->|Hci].
      * rewrite transpose_r. apply H2; lia.
      * rewrite transpose_other by lia. by apply H1.
  - intros c Hc Hp _. rewrite !time_at_Swap by lia.
    rewrite Hpj, transpose_r, transpose_other by lia.
    rewrite <- Hp. apply H1; lia.
Qed.

(** The child [down] compares the entry with: the earlier of the two. *)
Lemma smaller_child (h : JobHeap) (n i : nat) :
  (n ≤ length h)%nat → (2 * i + 1 < n)%nat →
  let j := (if (2 * i + 1 + 1 <? n)%nat && Less h (2 * i + 1 + 1) (2 * i + 1)
            then 2 * i + 1 + 1 else 2 * i + 1)%nat in
  ((j - 1) / 2)%nat = i ∧ (i < j < n)%nat
  ∧ (∀ c : nat, (0 < c < n)%nat → ((c - 1) / 2)%nat = i →
       time_at h j ≤ time_at h c).
Proof.
  intros Hn Hj1.
  destruct (Nat.ltb_spec (2 * i + 1 + 1) n) as [Hj2|Hj2]; cbn [andb].
  - rewrite Less_time_at by lia.
    destruct (bool_decide_reflect
                (time_at h (2 * i + 1 + 1) < time_at h (2 * i + 1)));
      (split; [lia|split; [lia|]]); intros c Hc Hp;
      (assert (Hcc : c = (2 * i + 1)%nat ∨ c = (2 * i + 1 + 1)%nat) by lia);
      destruct Hcc as [->| ->]; lia.
  - split; [lia|split; [lia|]]. intros c Hc Hp.
    assert (c = (2 * i + 1)%nat) as -> by lia. lia.
Qed.

Lemma down_loop_ordered (fuel : nat) (h : JobHeap) (i n : nat) :
  (n ≤ i + fuel)%nat → (n ≤ length h)%nat →
  down_inv h n i → heap_ordered (down_loop fuel h i n) n.
Proof.
  revert h i. induction fuel as [|fuel IH]; intros h i Hf Hn Hinv.
  { apply (down_inv_leaf h n i); [lia|done]. }
  rewrite down_loop_S.
  destruct (Nat.leb_spec n (2 * i + 1)) as [Hleaf|Hj1].
  { by apply (down_inv_leaf h n i). }
  destruct (smaller_child h n i Hn Hj1) as (Hp & Hj & Hmin).
  set (j := (if (2 * i + 1 + 1 <? n)%nat && Less h (2 * i + 1 + 1) (2 * i + 1)
             then 2 * i + 1 + 1 else 2 * i + 1)%nat) in *.
  rewrite Less_time_at by lia.
  destruct (bool_decide_reflect (time_at h j < time_at h i)) as [Hlt|Hge];
    cbn [negb].
  - apply IH; rewrite ?Swap_length; try lia.
    by apply down_inv_step.
  - apply (down_inv_stop h n i j); [done|lia|done].
Qed.

(** ** heap.Push and heap.Pop *)

Lemma time_at_app_l (h l : JobHeap) (k : nat) :
  (k < length h)%nat → time_at (h ++ l) k = time_at h k.
Proof. intros Hk. unfold time_at. by rewrite lookup_app_l. Qed.

Lemma time_at_take (h : JobHeap) (n k : nat) :
  (k < n)%nat → time_at (take n h) k = time_at h k.
Proof. intros Hk. unfold time_at. by rewrite lookup_take_lt. Qed.

Lemma heap_Push_length (h : JobHeap) (x : ScheduleJob) :
  length (heap_Push h x) = S (length h).
Proof.
  unfold heap_Push, up, Push. rewrite up_loop_length, length_app. simpl. lia.
Qed.

Lemma heap_Push_entries (h : JobHeap) (x : ScheduleJob) :
  entry <$> heap_Push h x ≡ₚ entry x :: (entry <$> h).
Proof.
  unfold heap_Push, up, Push.
  rewrite up_loop_entries, fmap_app. simpl. rewrite entry_set_index.
  symmetry. apply Permutation_cons_append.
Qed.

Lemma heap_Push_ordered (h : JobHeap) (x : ScheduleJob) :
  heap_ordered h (length h) →
  heap_ordered (heap_Push h x) (length (heap_Push h x)).
Proof.
  intros Hord. rewrite heap_Push_length. unfold heap_Push, up, Push, Len.
  set (h1 := h ++ [set_index x (length h)]).
  assert (Hlen : length h1 = S (length h)).
  { unfold h1. rewrite length_app. simpl. lia. }
  rewrite <- Hlen. apply up_loop_ordered; try lia.
  rewrite Hlen. replace (S (length h) - 1)%nat with (length h) by lia.
  split.
  - intros c Hc Hne. unfold h1. rewrite !time_at_app_l by lia.
    apply Hord. lia.
  - intros c Hc Hp. lia.
Qed.

Lemma heap_Pop_spec (h : JobHeap) (root : ScheduleJob) (rest : JobHeap) :
  h = root :: rest →
  heap_ordered h (length h) →
  ∃ e h', heap_Pop h = Some (e, h')
          ∧ entry e = entry root
          ∧ length h' = length rest
          ∧ entry root :: (entry <$> h') ≡ₚ entry <$> h
          ∧ heap_ordered h' (length h').
Proof.
  intros Hh Hord.
  assert (Hlen : length h = S (length rest)) by (by rewrite Hh).
  set (n := length rest) in *.
  set (h1 := Swap h 0 n).
  set (h2 := down h1 0 n).
  assert (Hlen1 : length h1 = S n) by (unfold h1; by rewrite Swap_length).
  assert (Hlen2 : length h2 = S n).
  { unfold h2, down. by rewrite down_loop_length. }
  assert (Hlast : entry <$> h2 !! n = Some (entry root)).
  { unfold h2, down. rewrite down_loop_outside by lia.
    unfold h1. rewrite Swap_lookup_entry, transpose_l by lia.
    by rewrite Hh. }
  destruct (h2 !! n) as [e|] eqn:He; [|done].
  assert (Hentry : entry e = entry root) by (simpl in Hlast; congruence).
  clear Hlast.
  assert (Hpop : heap_Pop h = Some (e, take n h2)).
  { assert (Hn : (Len h - 1)%nat = n) by (unfold Len; lia).
    rewrite Hh. unfold heap_Pop. rewrite <- Hh, Hn.
    fold h1. fold h2. unfold Pop. rewrite Hlen2.
    replace (S n - 1)%nat with n by lia. rewrite He. reflexivity. }
  exists e, (take n h2). split; [done|]. split; [done|].
  assert (Hlen' : length (take n h2) = n) by (rewrite length_take; lia).
  split; [done|].
  split.
  - rewrite <- Hentry.
    transitivity (entry <$> h2).
    + rewrite <- (take_drop_middle h2 n e He) at 2.
      rewrite (drop_ge h2 (S n)) by lia.
      rewrite fmap_app. simpl. apply Permutation_cons_append.
    + unfold h2, down. rewrite down_loop_entries.
      unfold h1. apply Swap_entries.
  - rewrite Hlen'. intros c Hc. rewrite !time_at_take by lia.
    revert c Hc. fold (heap_ordered h2 n).
    unfold h2, down. apply down_loop_ordered; [lia|lia|].
    split; [|lia].
    intros c Hc Hp. unfold h1. rewrite !time_at_Swap by lia.
    rewrite !transpose_other by lia. apply Hord. lia.
Qed.

(** ** The root of an ordered heap *)

Lemma ordered_root_earliest (h : JobHeap) :
  heap_ordered h (length h) → root_earliest h.
Proof.
  intros Hord i. induction (lt_wf i) as [i _ IH]. intros e He.
  assert (Hi : (i < length h)%nat) by (by eapply lookup_lt_Some).
  assert (Hti : time_at h i = ScheduleTime e) by (unfold time_at; by rewrite He).
  destruct (decide (i = 0)%nat) as [->|Hpos]; [lia|].
  destruct (lookup_lt_is_Some_2 h ((i - 1) / 2)) as [e' He']; [lia|].
  specialize (IH ((i - 1) / 2)%nat ltac:(lia) e' He').
  assert (Htp : time_at h ((i - 1) / 2) = ScheduleTime e')
    by (unfold time_at; by rewrite He').
  specialize (Hord i ltac:(lia)). lia.
Qed.

(** ** The heap of a scheduler *)

#[local] Arguments heap_Pop : simpl never.

Lemma poller_tick_cases (now : Z) (s : Scheduler) :
  poller_tick now s = s
  ∨ ∃ next rest e h',
      heap s = next :: rest ∧ ScheduleTime next < now
      ∧ heap_Pop (heap s) = Some (e, h')
      ∧ poller_tick now s = mkScheduler h' (queue.AddJob (queue s) (Job next)).
Proof.
  unfold poller_tick, Len, Time_After.
  destruct (heap s) as [|next rest] eqn:Hh; [by left|]. simpl.
  destruct (bool_decide_reflect (ScheduleTime next < now)) as [Hdue|]; [|by left].
  rewrite <- Hh. destruct (heap_Pop (heap s)) as [[e h']|] eqn:Hpop; [|by left].
  right. by exists next, rest, e, h'.
Qed.

Lemma step_ordered (s : Scheduler) (o : op) :
  heap_ordered (heap s) (length (heap s)) →
  heap_ordered (heap (step s o)) (length (heap (step s o))).
Proof.
  intros Hord. destruct o as [now j delay|now]; simpl.
  - by apply heap_Push_ordered.
  - destruct (poller_tick_cases now s)
      as [->|(next & rest & e & h' & Hh & _ & Hpop & ->)]; [done|].
    destruct (heap_Pop_spec _ _ _ Hh Hord) as (e1 & h1 & Hpop1 & _ & _ & _ & Hord1).
    rewrite Hpop in Hpop1. by simplify_eq/=.
Qed.

Lemma run_ordered (ops : list op) (s : Scheduler) :
  heap_ordered (heap s) (length (heap s)) →
  heap_ordered (heap (run ops s)) (length (heap (run ops s))).
Proof.
  revert s. induction ops as [|o ops IH]; intros s Hord; [done|].
  simpl. apply IH. by apply step_ordered.
Qed.

Lemma NewScheduler_ordered (q : queue.JobQueue) :
  heap_ordered (heap (NewScheduler q)) (length (heap (NewScheduler q))).
Proof. intros c Hc. simpl in Hc. lia. Qed.

Lemma run_NewScheduler_ordered (q : queue.JobQueue) (ops : list op) :
  heap_ordered (heap (run ops (NewScheduler q)))
               (length (heap (run ops (NewScheduler q)))).
Proof. apply run_ordered, NewScheduler_ordered. Qed.

(** ** The claims about the scheduler *)

(** C7. [Scheduler] adds to the heap one entry, made of the job and of
    the time [now + delay], and keeps every entry that was there; and
    after any sequence of calls of [Scheduler] and iterations of the
    poller, starting from [NewScheduler], no entry of the heap is
    earlier than its parent, so that the entry at the root, the one the
    poller looks at, is no later than any entry of the heap. *)
Theorem Scheduler_heap_min_invariant :
  (∀ (now : Z) (s : Scheduler) (j : utils.Job) (delay : Z),
     entry <$> heap (Scheduler_Scheduler now s j delay)
       ≡ₚ (j, now + delay) :: (entry <$> heap s)
     ∧ queue (Scheduler_Scheduler now s j delay) = queue s)
  ∧ (∀ (q : queue.JobQueue) (ops : list op),
       let h := heap (run ops (NewScheduler q)) in
       heap_ordered h (length h)
       ∧ ∀ (root : ScheduleJob) (i : nat) (e : ScheduleJob),
           h !! 0%nat = Some root → h !! i = Some e →
           ScheduleTime root ≤ ScheduleTime e).
Proof.
  split.
  - intros now s j delay. split; [|done].
    unfold Scheduler_Scheduler. simpl. by rewrite heap_Push_entries.
  - intros q ops h.
    assert (Hord : heap_ordered h (length h)) by apply run_NewScheduler_ordered.
    split; [done|]. intros root i e Hroot He.
    pose proof (ordered_root_earliest h Hord i e He) as Hmin.
    unfold time_at in Hmin. by rewrite Hroot in Hmin.
Qed.

(** C3, as the poller is written. An iteration of the poller on a
    scheduler reached from [NewScheduler] does nothing when the heap is
    empty or when the time of the root entry is not strictly before the
    clock reading; otherwise it takes out of the heap one entry, the
    root, which is no later than any other, adds the job of that entry
    to the store, and leaves every other entry in the heap, ordered as a
    heap. It promotes at most one job. *)
Theorem poller_tick_promotes_one_due_root
    (q : queue.JobQueue) (ops : list op) (now : Z) :
  let s := run ops (NewScheduler q) in
  (heap s = [] → poller_tick now s = s)
  ∧ (∀ (next : ScheduleJob) (rest : JobHeap),
       heap s = next :: rest →
       (∀ e, e ∈ heap s → ScheduleTime next ≤ ScheduleTime e)
       ∧ (now ≤ ScheduleTime next → poller_tick now s = s)
       ∧ (ScheduleTime next < now →
          queue (poller_tick now s) = queue.AddJob (queue s) (Job next)
          ∧ entry next :: (entry <$> heap (poller_tick now s))
              ≡ₚ entry <$> heap s
          ∧ length (heap (poller_tick now s)) = length rest
          ∧ heap_ordered (heap (poller_tick now s))
                         (length (heap (poller_tick now s))))).
Proof.
  intros s.
  assert (Hord : heap_ordered (heap s) (length (heap s)))
    by apply run_NewScheduler_ordered.
  split.
  - intros Hempty. unfold poller_tick. by rewrite Hempty.
  - intros next rest Hh. split; [|split].
    + intros e [i He]%list_elem_of_lookup.
      pose proof (ordered_root_earliest _ Hord i e He) as Hmin.
      unfold time_at in Hmin. by rewrite Hh in Hmin.
    + intros Hnot.
      destruct (poller_tick_cases now s)
        as [Hsame|(next' & rest' & e & h' & Hh' & Hdue & _)]; [done|].
      rewrite Hh in Hh'. simplify_eq. lia.
    + intros Hdue.
      destruct (heap_Pop_spec _ _ _ Hh Hord)
        as (e & h' & Hpop & _ & Hlen & Hperm & Hord').
      assert (Htick : poller_tick now s
                      = mkScheduler h' (queue.AddJob (queue s) (Job next))).
      { unfold poller_tick, Len, Time_After. rewrite Hpop, Hh. simpl.
        by rewrite bool_decide_eq_true_2. }
      rewrite Htick. simpl. done.
Qed.

(** C3, as claimed, fails. With two entries due at times 1 and 2 and the
    clock at 10, one iteration of the poller promotes the first job
    only: the entry due at time 2 stays in the heap, overdue. And with
    the clock at 1, the instant the root entry is due, the iteration
    promotes nothing. *)
Lemma poller_tick_leaves_overdue_backlog :
  entry <$> heap (poller_tick 10 samples.backlog) = [(samples.job_b, 2)]
  ∧ queue.service_order (queue (poller_tick 10 samples.backlog))
    = [samples.job_a]
  ∧ entry <$> heap samples.backlog = [(samples.job_a, 1); (samples.job_b, 2)]
  ∧ poller_tick 1 samples.backlog = samples.backlog.
Proof. repeat split; vm_compute; reflexivity. Qed.

End scheduler_props.

(** * Properties of the worker *)

Module worker_props.
Import utils queue worker.

(** ** Machine integers *)

Lemma wrap_int_id (z : Z) : is_int z → wrap_int z = z.
Proof.
  unfold is_int, wrap_int, min_int, max_int. intros Hz.
  rewrite Z.mod_small; lia.
Qed.

Lemma wrap_int_max : wrap_int (max_int + 1) = min_int.
Proof. reflexivity. Qed.

Lemma bump_fields (j : Job) :
  ID (bump j) = ID j ∧ Type_ (bump j) = Type_ j ∧ Payload (bump j) = Payload j
  ∧ Priority (bump j) = Priority j ∧ MaxRetries (bump j) = MaxRetries j
  ∧ CreatedAt (bump j) = CreatedAt j
  ∧ RetryCount (bump j) = wrap_int (RetryCount j + 1).
Proof. done. Qed.

(** ** The delay before a retry *)

Lemma backoff_exact (large : Z → Z) (rc : Z) :
  0 ≤ rc ≤ 33 → backoff large rc = 2 ^ rc * Second.
Proof.
  intros Hrc. unfold backoff, pow2_duration.
  destruct (Z.ltb_spec rc 0); [lia|].
  destruct (Z.ltb_spec rc 63); [|lia].
  apply wrap_int_id. unfold is_int, min_int, max_int, Second.
  assert (0 < 2 ^ rc ≤ 2 ^ 33).
  { split; [apply Z.pow_pos_nonneg; lia|apply Z.pow_le_mono_r; lia]. }
  lia.
Qed.

(** C8, at the input where the code departs from it. For a job that has
    failed 33 times before and may be retried 40 times, the attempt that
    fails raises the retry count to 34, which is within [MaxRetries], and
    the delay of the retry is the product of 2^34 and 10^9 nanoseconds
    wrapped around in an [int64]: a negative duration, not 2^34 seconds.
    Up to a retry count of 33 the delay is 2^retryCount seconds
    ([backoff_exact]). *)
Theorem backoff_wraps_from_34 (large : Z → Z) :
  on_failure large samples.job_late
  = Retry (-1266874889709551616) (with_retries samples.job_late 34)
  ∧ backoff large 34 ≠ 2 ^ 34 * Second
  ∧ backoff large 34 < 0.
Proof. repeat split; vm_compute; congruence. Qed.

(** ** The job after a failure *)

(** C10, as the increment is written. When [handleJob] fails for the job
    [j] of a worker, the job that the worker gives to the retry
    goroutine, which adds it to the store when it wakes up, or moves to
    the dead-letter queue, is [j] with the retry count increased by
    one, provided the retry count of [j] is not the largest [int]; the
    ID, type, payload, priority, maximum of retries and creation time
    are those of [j]. *)
Theorem failed_job_differs_in_RetryCount_only
    (large : Z → Z) (s : System) (i : nat) (j : Job) :
  running s !! i = Some j →
  handleJob j ≠ None →
  is_int (RetryCount j) → RetryCount j ≠ max_int →
  ∃ j' : Job,
    ((∃ delay, timers (finish large i s) = timers s ++ [(delay, j')]
               ∧ store (finish large i s) = store s
               ∧ store (fire (length (timers s)) (finish large i s))
                 = AddJob (store s) j')
     ∨ (timers (finish large i s) = timers s
        ∧ store (finish large i s) = MoveJobToDeadLetterQueue (store s) j'))
    ∧ RetryCount j' = RetryCount j + 1
    ∧ ID j' = ID j ∧ Type_ j' = Type_ j ∧ Payload j' = Payload j
    ∧ Priority j' = Priority j ∧ MaxRetries j' = MaxRetries j
    ∧ CreatedAt j' = CreatedAt j.
Proof.
  intros Hrun Hfail Hint Hmax. exists (bump j).
  split.
  - unfold finish. rewrite Hrun.
    destruct (handleJob j) as [err|]; [|done].
    unfold on_failure. destruct (_ <=? _).
    + left. eexists. simpl. split; [done|]. split; [done|].
      unfold fire. simpl.
      by rewrite lookup_app_r, Nat.sub_diag by done.
    + right. done.
  - repeat split. simpl. apply wrap_int_id.
    unfold is_int, min_int, max_int in *. lia.
Qed.

(** C10, as claimed, fails. For a job whose retry count is the largest
    [int], the increment wraps around: the job that is retried has the
    smallest [int] as its retry count, not one more. *)
Lemma saturated_RetryCount_wraps :
  ∃ delay j',
    on_failure amd64_large_float samples.job_saturated = Retry delay j'
    ∧ RetryCount j' = - 2 ^ 63
    ∧ RetryCount j' ≠ RetryCount samples.job_saturated + 1.
Proof. eexists _, _. repeat split; vm_compute; congruence. Qed.


(** ** One job among the others *)

Lemma with_retries_same (j : Job) : with_retries j (RetryCount j) = j.
Proof. by destruct j. Qed.

Lemma attempts_S (j : Job) (k : nat) :
  attempts j (S k) = attempts j k ++ [with_retries j (Z.of_nat k)].
Proof. unfold attempts. by rewrite seq_S, fmap_app. Qed.

Lemma attempts_length (j : Job) (k : nat) : length (attempts j k) = k.
Proof. unfold attempts. by rewrite length_fmap, length_seq. Qed.

Lemma on_failure_ID (large : Z → Z) (x : Job) :
  match on_failure large x with
  | Retry _ x' => ID x' = ID x
  | DeadLetter x' => ID x' = ID x
  end.
Proof. unfold on_failure. by destruct (_ <=? _). Qed.

Section OneJob.

Variable large : Z → Z.
Variable j : Job.
Hypothesis j_named : ID j ≠ ""%string.
Hypothesis j_known : known_priority (Priority j).
Hypothesis j_fails : handleJob j ≠ None.
Hypothesis j_retries : 0 ≤ MaxRetries j < max_int.

Lemma on_failure_retry (k : nat) :
  Z.of_nat (S k) ≤ MaxRetries j →
  on_failure large (with_retries j (Z.of_nat k))
  = Retry (backoff large (Z.of_nat (S k))) (with_retries j (Z.of_nat (S k))).
Proof using j_retries.
  intros Hk. unfold on_failure, bump. cbn [RetryCount MaxRetries with_retries].
  rewrite wrap_int_id by (unfold is_int, min_int, max_int in *; lia).
  replace (Z.of_nat k + 1) with (Z.of_nat (S k)) by lia.
  destruct (Z.leb_spec (Z.of_nat (S k)) (MaxRetries j)); [done|lia].
Qed.

Lemma on_failure_dead (k : nat) :
  Z.of_nat k = MaxRetries j →
  on_failure large (with_retries j (Z.of_nat k))
  = DeadLetter (with_retries j (MaxRetries j + 1)).
Proof using j_retries.
  intros Hk. unfold on_failure, bump. cbn [RetryCount MaxRetries with_retries].
  rewrite wrap_int_id by (unfold is_int, min_int, max_int in *; lia).
  rewrite Hk.
  destruct (Z.leb_spec (MaxRetries j + 1) (MaxRetries j)); [lia|done].
Qed.

(** *** What an event on a job of the others shows of [j]: nothing new *)

Lemma poll_empty (s : System) : service_order (store s) = [] → poll s = s.
Proof.
  intros Hso. unfold poll. by rewrite (queue_props.GetJob_none _ Hso).
Qed.

Lemma poll_head (s : System) (x : Job) (rest : list Job) :
  service_order (store s) = x :: rest →
  ∃ q', GetJob (store s) = ((x, None), q')
        ∧ service_order q' = rest
        ∧ deadLetterQueue q' = deadLetterQueue (store s).
Proof.
  intros Hso.
  destruct (queue_props.GetJob_some _ _ _ Hso) as (q' & Hget & Hrest).
  exists q'. split; [done|]. split; [done|].
  pose proof (queue_props.GetJob_deadLetterQueue (store s)) as Hdl.
  by rewrite Hget in Hdl.
Qed.

Lemma poll_foreign (s : System) (x : Job) (rest : list Job) :
  service_order (store s) = x :: rest → ID x ≠ ID j →
  view j (poll s) = view j s ∧ service_order (store (poll s)) = rest.
Proof.
  intros Hso Hx. destruct (poll_head s x rest Hso) as (q' & Hget & Hrest & Hdl).
  unfold poll. rewrite Hget.
  destruct (String.eqb (ID x) ""); unfold view, dead_letter_order;
    cbn [store running timers handled];
    rewrite Hrest, Hso, Hdl, queue_props.copies_cons_foreign,
      ?queue_props.copies_snoc_foreign by done; done.
Qed.

Lemma poll_mine (s : System) (x : Job) (rest : list Job) :
  service_order (store s) = x :: rest → ID x = ID j →
  view j (poll s)
  = (copies j rest, copies j (running s) ++ [x], copies j (snd <$> timers s),
     copies j (dead_letter_order (store s)),
     copies j (lane (deadLetterQueue (store s)) (Priority j)),
     copies j (handled s) ++ [x]).
Proof using j_named.
  intros Hso Hx. destruct (poll_head s x rest Hso) as (q' & Hget & Hrest & Hdl).
  unfold poll. rewrite Hget.
  assert (Hne : String.eqb (ID x) "" = false)
    by (apply String.eqb_neq; congruence).
  rewrite Hne. unfold view, dead_letter_order.
  cbn [store running timers handled].
  by rewrite Hrest, Hdl, !queue_props.copies_snoc_mine.
Qed.

Lemma finish_foreign (s : System) (i : nat) (x : Job) :
  running s !! i = Some x → ID x ≠ ID j →
  view j (finish large i s) = view j s.
Proof.
  intros Hi Hx. unfold finish. rewrite Hi.
  assert (Hrun : copies j (delete i (running s)) = copies j (running s))
    by (by eapply queue_props.copies_delete_foreign).
  destruct (handleJob x).
  - pose proof (on_failure_ID large x) as Hid.
    destruct (on_failure large x) as [delay x'|x'];
      unfold view; cbn [store running timers handled]; rewrite Hrun.
    + rewrite fmap_app. simpl.
      rewrite queue_props.copies_snoc_foreign by congruence. done.
    + assert (Hx' : ID x' ≠ ID j) by congruence.
      rewrite queue_props.pending_MoveJobToDeadLetterQueue by done.
      destruct (queue_props.dead_MoveJobToDeadLetterQueue_foreign
                  j x' (store s) (Priority j) Hx') as [-> ->]. done.
  - unfold view. cbn [store running timers handled]. by rewrite Hrun.
Qed.

Lemma fire_foreign (s : System) (i : nat) (delay : Z) (x : Job) :
  timers s !! i = Some (delay, x) → ID x ≠ ID j →
  view j (fire i s) = view j s.
Proof.
  intros Hi Hx. unfold fire. rewrite Hi.
  unfold view. cbn [store running timers handled].
  rewrite queue_props.pending_AddJob_foreign, queue_props.dead_AddJob,
    queue_props.AddJob_deadLetterQueue by done.
  rewrite list_fmap_delete.
  rewrite (queue_props.copies_delete_foreign j x); [done| |done].
  by rewrite list_lookup_fmap, Hi.
Qed.

Lemma submit_foreign (s : System) (x : Job) :
  ID x ≠ ID j → view j (submit x s) = view j s.
Proof.
  intros Hx. unfold submit, view. cbn [store running timers handled].
  by rewrite queue_props.pending_AddJob_foreign, queue_props.dead_AddJob,
    queue_props.AddJob_deadLetterQueue.
Qed.

(** *** What an event on the copy of [j] does *)

Lemma poll_at_lane_other (k : nat) (s : System) (x : Job) (rest : list Job) :
  at_lane j k s → service_order (store s) = x :: rest → ID x ≠ ID j →
  at_lane j k (poll s) ∧ service_order (store (poll s)) = rest.
Proof.
  intros [Hk Hview] Hso Hx.
  destruct (poll_foreign s x rest Hso Hx) as [Hsame Hrest].
  split; [|done]. split; [done|]. by rewrite Hsame.
Qed.

Lemma poll_at_lane_head (k : nat) (s : System) (x : Job) (rest : list Job) :
  at_lane j k s → service_order (store s) = x :: rest → ID x = ID j →
  at_worker j k (poll s).
Proof using j_named.
  intros [Hk Hview] Hso Hx. split; [done|].
  rewrite (poll_mine s x rest Hso Hx).
  unfold view in Hview. rewrite Hso, queue_props.copies_cons_mine in Hview by done.
  injection Hview as -> Hrest -> -> -> -> ->.
  by rewrite Hrest, attempts_S.
Qed.

Lemma finish_at_worker (k : nat) (s : System) (i : nat) (x : Job) :
  at_worker j k s → running s !! i = Some x → ID x = ID j →
  if decide (Z.of_nat k = MaxRetries j) then at_dead_letter j (finish large i s)
  else at_timer j (S k) (finish large i s).
Proof using j_known j_fails j_retries.
  intros [Hk Hview] Hi Hx. unfold view in Hview.
  injection Hview as Hpend Hrun Hwait Hdead Hlane Hhand.
  destruct (queue_props.copies_delete_single j x _ _ i Hi Hx Hrun) as [-> Hgone].
  unfold finish. rewrite Hi.
  change (handleJob (with_retries j (Z.of_nat k))) with (handleJob j).
  destruct (handleJob j) as [err|]; [|done].
  destruct (decide (Z.of_nat k = MaxRetries j)) as [Hlast|Hmore].
  - rewrite on_failure_dead by done.
    unfold at_dead_letter, view. cbn [store running timers handled].
    rewrite queue_props.pending_MoveJobToDeadLetterQueue by done.
    destruct (queue_props.dead_MoveJobToDeadLetterQueue_mine
                j (with_retries j (MaxRetries j + 1)) (store s))
      as [-> Hl]; [done|done|done|].
    cbn [Priority with_retries] in Hl. rewrite Hl, Hpend, Hgone, Hwait, Hhand.
    by replace (Z.to_nat (MaxRetries j + 1)) with (S k) by lia.
  - rewrite on_failure_retry by lia. split; [lia|].
    unfold view. cbn [store running timers handled].
    rewrite fmap_app. simpl.
    rewrite queue_props.copies_snoc_mine by done.
    by rewrite Hpend, Hgone, Hwait, Hdead, Hlane, Hhand.
Qed.

Lemma fire_at_timer (k : nat) (s : System) (i : nat) (delay : Z) (x : Job) :
  at_timer j k s → timers s !! i = Some (delay, x) → ID x = ID j →
  at_lane j k (fire i s).
Proof using j_known.
  intros [Hk Hview] Hi Hx. unfold view in Hview.
  injection Hview as Hpend Hrun Hwait Hdead Hlane Hhand.
  assert (Hi' : (snd <$> timers s) !! i = Some x)
    by (by rewrite list_lookup_fmap, Hi).
  destruct (queue_props.copies_delete_single j x _ _ i Hi' Hx Hwait)
    as [-> Hgone].
  unfold fire. rewrite Hi. split; [apply Hk|].
  unfold view. cbn [store running timers handled].
  rewrite queue_props.pending_AddJob_mine, queue_props.dead_AddJob,
    queue_props.AddJob_deadLetterQueue by done.
  rewrite list_fmap_delete.
  by rewrite Hgone, Hrun, Hdead, Hlane, Hhand.
Qed.

Lemma submit_absent (s : System) :
  RetryCount j = 0 → absent j s → at_lane j 0 (submit j s).
Proof using j_known j_retries.
  intros Hrc Habs. unfold absent, view in Habs.
  injection Habs as Hpend Hrun Hwait Hdead Hlane Hhand.
  split; [simpl; lia|].
  unfold submit, view. cbn [store running timers handled].
  rewrite queue_props.pending_AddJob_mine, queue_props.dead_AddJob,
    queue_props.AddJob_deadLetterQueue by done.
  rewrite Hrun, Hwait, Hdead, Hlane, Hhand.
  change (Z.of_nat 0) with 0. by rewrite <- Hrc, with_retries_same.
Qed.

(** *** The copy of [j] is in one of the four places *)

Lemma tracked_exec (s : System) (e : event) :
  foreign j e →
  (∃ k, at_lane j k s ∨ at_worker j k s ∨ at_timer j k s) ∨ at_dead_letter j s →
  (∃ k, at_lane j k (exec large s e) ∨ at_worker j k (exec large s e)
        ∨ at_timer j k (exec large s e))
  ∨ at_dead_letter j (exec large s e).
Proof using j_named j_known j_fails j_retries.
  intros He Hs.
  assert (Hsame : view j (exec large s e) = view j s → 
            (∃ k, at_lane j k (exec large s e) ∨ at_worker j k (exec large s e)
                  ∨ at_timer j k (exec large s e))
            ∨ at_dead_letter j (exec large s e)).
  { intros Hv. unfold at_lane, at_worker, at_timer, at_dead_letter in *.
    by rewrite Hv. }
  destruct e as [|i|i|x]; cbn [exec] in *.
  - (* Poll *)
    destruct (service_order (store s)) as [|x rest] eqn:Hso.
    { apply Hsame. by rewrite poll_empty. }
    destruct (decide (ID x = ID j)) as [Hx|Hx];
      [|apply Hsame; by apply (poll_foreign s x rest)].
    assert (Hpend : copies j (service_order (store s)) = x :: copies j rest)
      by (by rewrite Hso, queue_props.copies_cons_mine).
    destruct Hs as [[k [Hl|[[_ Hv]|[_ Hv]]]]|Hv];
      try (unfold at_dead_letter, view in Hv; rewrite Hpend in Hv; discriminate).
    left. exists k. right. left. by apply (poll_at_lane_head k s x rest).
  - (* Finish *)
    destruct (running s !! i) as [x|] eqn:Hi;
      [|apply Hsame; unfold finish; by rewrite Hi].
    destruct (decide (ID x = ID j)) as [Hx|Hx];
      [|apply Hsame; by apply (finish_foreign s i x)].
    pose proof (queue_props.copies_lookup j x _ i Hi Hx) as Hrun.
    destruct Hs as [[k [[_ Hv]|[Hw|[_ Hv]]]]|Hv];
      try (unfold at_dead_letter, view in Hv; rewrite Hrun in Hv;
           injection Hv as _ Hv _; by destruct (copies j (take i (running s)))).
    pose proof (finish_at_worker k s i x Hw Hi Hx) as Hnext.
    destruct (decide (Z.of_nat k = MaxRetries j)); [by right|].
    left. exists (S k). by right; right.
  - (* Fire *)
    destruct (timers s !! i) as [[delay x]|] eqn:Hi;
      [|apply Hsame; unfold fire; by rewrite Hi].
    destruct (decide (ID x = ID j)) as [Hx|Hx];
      [|apply Hsame; by apply (fire_foreign s i delay x)].
    assert (Hi' : (snd <$> timers s) !! i = Some x)
      by (by rewrite list_lookup_fmap, Hi).
    pose proof (queue_props.copies_lookup j x _ i Hi' Hx) as Hwait.
    destruct Hs as [[k [[_ Hv]|[[_ Hv]|Ht]]]|Hv];
      try (unfold at_dead_letter, view in Hv; rewrite Hwait in Hv;
           injection Hv as _ _ Hv _;
           by destruct (copies j (take i (snd <$> timers s)))).
    left. exists k. left. by apply (fire_at_timer k s i delay x).
  - (* Submit *)
    apply Hsame. by apply submit_foreign.
Qed.

Lemma tracked_execs (es : list event) (s : System) :
  Forall (foreign j) es →
  (∃ k, at_lane j k s ∨ at_worker j k s ∨ at_timer j k s) ∨ at_dead_letter j s →
  (∃ k, at_lane j k (execs large es s) ∨ at_worker j k (execs large es s)
        ∨ at_timer j k (execs large es s))
  ∨ at_dead_letter j (execs large es s).
Proof using j_named j_known j_fails j_retries.
  intros Hes. revert s. induction Hes as [|e es He _ IH]; intros s Hs; [done|].
  simpl. apply IH. by apply tracked_exec.
Qed.

(** *** The copy of [j] can always move on *)

Lemma execs_app (es es' : list event) (s : System) :
  execs large (es ++ es') s = execs large es' (execs large es s).
Proof. unfold execs. apply foldl_app. Qed.

Lemma polls_to_worker (before : list Job) (x : Job) (after : list Job)
    (k : nat) (s : System) :
  at_lane j k s →
  service_order (store s) = before ++ x :: after →
  copies j before = [] → ID x = ID j →
  ∃ es, Forall (foreign j) es ∧ at_worker j k (execs large es s).
Proof using j_named.
  revert s. induction before as [|y before IH]; intros s Hl Hso Hb Hx.
  - exists [Poll]. split; [by repeat constructor|].
    by apply (poll_at_lane_head k s x after).
  - assert (Hy : ID y ≠ ID j).
    { intros Hy. by rewrite queue_props.copies_cons_mine in Hb. }
    rewrite queue_props.copies_cons_foreign in Hb by done.
    destruct (poll_at_lane_other k s y _ Hl Hso Hy) as [Hl' Hso'].
    destruct (IH (poll s) Hl' Hso' Hb Hx) as (es & Hes & Hw).
    exists (Poll :: es). split; [by constructor|done].
Qed.

Lemma lane_to_worker (k : nat) (s : System) :
  at_lane j k s →
  ∃ es, Forall (foreign j) es ∧ at_worker j k (execs large es s).
Proof using j_named.
  intros Hl. pose proof Hl as [_ Hview]. unfold view in Hview.
  injection Hview as Hpend _ _ _ _ _.
  destruct (queue_props.copies_single _ _ _ Hpend)
    as (before & after & Hso & Hb & _).
  by apply (polls_to_worker before (with_retries j (Z.of_nat k)) after).
Qed.

Lemma worker_to_next (k : nat) (s : System) :
  at_worker j k s →
  ∃ e, foreign j e
       ∧ if decide (Z.of_nat k = MaxRetries j)
         then at_dead_letter j (exec large s e)
         else at_timer j (S k) (exec large s e).
Proof using j_known j_fails j_retries.
  intros Hw. pose proof Hw as [_ Hview]. unfold view in Hview.
  injection Hview as _ Hrun _ _ _ _.
  assert (Hin : with_retries j (Z.of_nat k) ∈ copies j (running s))
    by (rewrite Hrun; apply list_elem_of_here).
  apply list_elem_of_filter in Hin as [_ Hin].
  apply list_elem_of_lookup in Hin as [i Hi].
  exists (Finish i). split; [done|].
  by apply (finish_at_worker k s i (with_retries j (Z.of_nat k))).
Qed.

Lemma timer_to_lane (k : nat) (s : System) :
  at_timer j k s →
  ∃ e, foreign j e ∧ at_lane j k (exec large s e).
Proof using j_known.
  intros Ht. pose proof Ht as [_ Hview]. unfold view in Hview.
  injection Hview as _ _ Hwait _ _ _.
  assert (Hin : with_retries j (Z.of_nat k) ∈ copies j (snd <$> timers s))
    by (rewrite Hwait; apply list_elem_of_here).
  apply list_elem_of_filter in Hin as [_ Hin].
  apply list_elem_of_lookup in Hin as [i Hi].
  rewrite list_lookup_fmap in Hi.
  destruct (timers s !! i) as [[delay x]|] eqn:Hti; [|done].
  simpl in Hi. injection Hi as ->.
  exists (Fire i). split; [done|].
  by apply (fire_at_timer k s i delay (with_retries j (Z.of_nat k))).
Qed.

Lemma lane_to_dead_letter (n k : nat) (s : System) :
  Z.of_nat (k + n) = MaxRetries j → at_lane j k s →
  ∃ es, Forall (foreign j) es ∧ at_dead_letter j (execs large es s).
Proof using j_named j_known j_fails j_retries.
  revert k s. induction n as [|n IH]; intros k s Hk Hl.
  - destruct (lane_to_worker k s Hl) as (es & Hes & Hw).
    destruct (worker_to_next k _ Hw) as (e & He & Hnext).
    rewrite decide_True in Hnext by lia.
    exists (es ++ [e]). split; [apply Forall_app; by repeat constructor|].
    by rewrite execs_app.
  - destruct (lane_to_worker k s Hl) as (es & Hes & Hw).
    destruct (worker_to_next k _ Hw) as (e & He & Hnext).
    rewrite decide_False in Hnext by lia.
    destruct (timer_to_lane (S k) _ Hnext) as (e' & He' & Hl').
    destruct (IH (S k) _ ltac:(lia) Hl') as (es' & Hes' & Hd).
    exists (es ++ [e; e'] ++ es').
    split; [repeat (apply Forall_app; split); by repeat constructor|].
    by rewrite !execs_app.
Qed.

Lemma tracked_progress (s : System) :
  (∃ k, at_lane j k s ∨ at_worker j k s ∨ at_timer j k s) ∨ at_dead_letter j s →
  ∃ es, Forall (foreign j) es ∧ at_dead_letter j (execs large es s).
Proof using j_named j_known j_fails j_retries.
  assert (Hlane : ∀ k s', at_lane j k s' →
            ∃ es, Forall (foreign j) es ∧ at_dead_letter j (execs large es s')).
  { intros k s' Hl. pose proof Hl as [Hk _].
    apply (lane_to_dead_letter (Z.to_nat (MaxRetries j) - k) k); [lia|done]. }
  intros [[k [Hl|[Hw|Ht]]]|Hd].
  - by apply (Hlane k).
  - destruct (worker_to_next k _ Hw) as (e & He & Hnext).
    destruct (decide (Z.of_nat k = MaxRetries j)).
    + exists [e]. split; [by repeat constructor|done].
    + destruct (timer_to_lane (S k) _ Hnext) as (e' & He' & Hl').
      destruct (Hlane (S k) _ Hl') as (es' & Hes' & Hd).
      exists ([e; e'] ++ es').
      split; [apply Forall_app; by repeat constructor|].
      by rewrite execs_app.
  - destruct (timer_to_lane k _ Ht) as (e & He & Hl).
    destruct (Hlane k _ Hl) as (es' & Hes' & Hd).
    exists (e :: es'). split; [by constructor|done].
  - exists []. by split.
Qed.

(** With no copy of [j] pending, in a worker or in a retry goroutine,
    no event changes what the system shows of [j]. *)
Lemma inactive_exec (s : System) (e : event) :
  foreign j e →
  copies j (service_order (store s)) = [] →
  copies j (running s) = [] →
  copies j (snd <$> timers s) = [] →
  view j (exec large s e) = view j s.
Proof.
  intros He Hpend Hrun Hwait. destruct e as [|i|i|x]; cbn [exec] in *.
  - destruct (service_order (store s)) as [|x rest] eqn:Hso.
    { by rewrite poll_empty. }
    apply (poll_foreign s x rest Hso). intros Hx.
    by rewrite queue_props.copies_cons_mine in Hpend.
  - destruct (running s !! i) as [x|] eqn:Hi;
      [|unfold finish; by rewrite Hi].
    apply (finish_foreign s i x Hi).
    by apply (queue_props.copies_lookup_none j x (running s) i).
  - destruct (timers s !! i) as [[delay x]|] eqn:Hi;
      [|unfold fire; by rewrite Hi].
    apply (fire_foreign s i delay x Hi).
    apply (queue_props.copies_lookup_none j x (snd <$> timers s) i); [|done].
    by rewrite list_lookup_fmap, Hi.
  - by apply submit_foreign.
Qed.

Lemma dead_letter_stays (es : list event) (s : System) :
  Forall (foreign j) es →
  at_dead_letter j s → at_dead_letter j (execs large es s).
Proof.
  intros Hes. revert s. induction Hes as [|e es He _ IH]; intros s Hd; [done|].
  simpl. apply IH. unfold at_dead_letter in *.
  rewrite inactive_exec; [done|done|..];
    unfold view in Hd; by injection Hd as Hpend Hrun Hwait _ _ _.
Qed.

End OneJob.

Lemma tracked_attempts (j : Job) (s : System) :
  0 ≤ MaxRetries j →
  (∃ k, at_lane j k s ∨ at_worker j k s ∨ at_timer j k s) ∨ at_dead_letter j s →
  ∃ n : nat, copies j (handled s) = attempts j n
             ∧ Z.of_nat n ≤ MaxRetries j + 1.
Proof.
  intros Hm [[k [[Hk Hv]|[[Hk Hv]|[Hk Hv]]]]|Hv]; unfold at_dead_letter, view in Hv;
    injection Hv as _ _ _ _ _ Hh.
  - exists k. split; [done|lia].
  - exists (S k). split; [done|lia].
  - exists k. split; [done|lia].
  - exists (Z.to_nat (MaxRetries j + 1)). split; [done|lia].
Qed.

(** ** The claims about the retry protocol *)

(** C2, as the worker is written. Let a job have a non-empty ID, a
    priority among High, Medium and Low, no retry yet and
    [MaxRetries = m], with [0 ≤ m] and [m] below the largest [int], and
    let [handleJob] fail for it. The job is added to the store of a
    system that has no job with this ID, and no producer adds another
    one. Then, whatever the workers, the retry goroutines and the
    producers do with this job and with the others, and in whatever
    order, there is one copy of the job and it is in one of four places:
    in its lane with retry count [k ≤ m], after [k] calls of
    [handleJob]; in a worker with retry count [k ≤ m], in its call
    number [k + 1]; in a retry goroutine with retry count [k], for
    [1 ≤ k ≤ m], after [k] calls; or in the dead-letter lane of its
    priority with retry count [m + 1], the first that exceeds [m],
    after exactly [m + 1] calls. The calls of [handleJob] on the job
    were made with the retry counts 0, 1, 2, ... in turn, and from each
    of the places the job can get to the dead-letter lane, which it
    never leaves. *)
Theorem always_failing_job_is_dead_lettered
    (large : Z → Z) (j : Job) (s0 : System) (es : list event) :
  ID j ≠ ""%string →
  known_priority (Priority j) →
  handleJob j ≠ None →
  RetryCount j = 0 →
  0 ≤ MaxRetries j < max_int →
  absent j s0 →
  Forall (foreign j) es →
  let s := execs large es (submit j s0) in
  ((∃ k, at_lane j k s ∨ at_worker j k s ∨ at_timer j k s)
   ∨ at_dead_letter j s)
  ∧ (∃ n : nat, copies j (handled s) = attempts j n
                ∧ Z.of_nat n ≤ MaxRetries j + 1)
  ∧ (∃ es', Forall (foreign j) es' ∧ at_dead_letter j (execs large es' s))
  ∧ (at_dead_letter j s →
     ∀ es', Forall (foreign j) es' → at_dead_letter j (execs large es' s)).
Proof.
  intros Hid Hknown Hfails Hrc Hm Habs Hes s.
  assert (Hs : (∃ k, at_lane j k s ∨ at_worker j k s ∨ at_timer j k s)
               ∨ at_dead_letter j s).
  { apply tracked_execs; try done.
    left. exists 0%nat. left. by apply submit_absent. }
  split; [done|]. split; [apply tracked_attempts; [lia|done]|].
  split; [by apply tracked_progress|].
  intros Hd es' Hes'.
  by apply dead_letter_stays.
Qed.

(** C2, as claimed, fails. A job with an empty ID, priority High, no
    retry yet and [MaxRetries = 1], for which [handleJob] fails, is
    added to a new store. The worker that takes it does not call
    [handleJob]: the system is as it was before the job was added,
    with no pending job, no call of [handleJob] and empty dead-letter
    lanes. The job has been attempted 0 times, not 2, and is lost. *)
Lemma anonymous_job_is_never_attempted :
  let j := samples.job_anonymous in
  known_priority (Priority j) ∧ MaxRetries j = 1 ∧ RetryCount j = 0
  ∧ handleJob j ≠ None
  ∧ exec amd64_large_float (submit j idle) Poll = idle.
Proof.
  repeat split; try (vm_compute; congruence).
  left. reflexivity.
Qed.

(** ** The claims at sample inputs *)

(** Job [x], with one retry, is added to a new store; two attempts fail
    and a retry goroutine wakes up in between. *)
Lemma always_failing_job_x_sample :
  let s := execs amd64_large_float [Poll; Finish 0; Fire 0; Poll; Finish 0]
                 (submit samples.job_x idle) in
  ((∃ k, at_lane samples.job_x k s ∨ at_worker samples.job_x k s
         ∨ at_timer samples.job_x k s)
   ∨ at_dead_letter samples.job_x s)
  ∧ (∃ n : nat, copies samples.job_x (handled s) = attempts samples.job_x n
                ∧ Z.of_nat n ≤ MaxRetries samples.job_x + 1).
Proof.
  pose proof (always_failing_job_is_dead_lettered
                amd64_large_float samples.job_x idle
                [Poll; Finish 0; Fire 0; Poll; Finish 0]) as Hx.
  assert (Hid : ID samples.job_x ≠ ""%string) by discriminate.
  assert (Hknown : known_priority (Priority samples.job_x)) by (by left).
  assert (Hfails : handleJob samples.job_x ≠ None) by (vm_compute; discriminate).
  assert (Hrc : RetryCount samples.job_x = 0) by reflexivity.
  assert (Hm : 0 ≤ MaxRetries samples.job_x < max_int)
    by (split; [discriminate | reflexivity]).
  assert (Habs : absent samples.job_x idle) by reflexivity.
  assert (Hes : Forall (foreign samples.job_x)
                       [Poll; Finish 0; Fire 0; Poll; Finish 0])
    by (repeat constructor).
  specialize (Hx Hid Hknown Hfails Hrc Hm Habs Hes). cbv zeta in Hx.
  destruct Hx as (Hplace & Hcalls & _).
  split; [exact Hplace | exact Hcalls].
Defined.

(** A worker that holds job [x] sees it fail. *)
Lemma failed_job_x_sample :
  ∃ j' : Job,
    RetryCount j' = RetryCount samples.job_x + 1 ∧ ID j' = ID samples.job_x.
Proof.
  destruct (failed_job_differs_in_RetryCount_only
              amd64_large_float
              (mkSystem NewQueue [samples.job_x] [] [samples.job_x])
              0 samples.job_x)
    as (j' & _ & Hrc & Hid & _).
  - reflexivity.
  - vm_compute. discriminate.
  - split; discriminate.
  - discriminate.
  - exists j'. split; [exact Hrc | exact Hid].
Defined.

End worker_props.

(** * More on the priority store: sequences of calls *)

Module queue_calls.
Import utils queue queue_props.

(** ** Each method, lane by lane *)

Lemma AddJob_lane_any (q : JobQueue) (x : Job) (p : Z) :
  lane (queue (AddJob q x)) p
  = lane (queue q) p
    ++ (if decide (known_priority (Priority x) ∧ Priority x = p)
        then [x] else []).
Proof.
  destruct (decide (known_priority (Priority x))) as [Hk|Hk].
  - rewrite AddJob_lane, of_priority_single by done.
    destruct (decide (Priority x = p)).
    + by rewrite decide_True.
    + by rewrite decide_False by tauto.
  - rewrite AddJob_unknown, decide_False by tauto. by rewrite app_nil_r.
Qed.

Lemma RemoveJobFromQueue_lanes (q : JobQueue) (x : Job) (p : Z) :
  known_priority (Priority x) →
  lane (queue (RemoveJobFromQueue q x)) p
  = (if decide (p = Priority x) then RemoveJob (lane (queue q) p) x
     else lane (queue q) p)
  ∧ deadLetterQueue (RemoveJobFromQueue q x) = deadLetterQueue q.
Proof.
  intros Hk. unfold RemoveJobFromQueue, High, Medium, Low.
  destruct (known_priority_cases _ Hk) as [Hp|[Hp|Hp]]; rewrite Hp; simpl;
    (split; [|done]);
    (destruct (decide (p = _)) as [->|Hne];
     [by rewrite lane_insert | by rewrite lane_insert_ne]).
Qed.

Lemma RemoveJobFromQueue_unknown (q : JobQueue) (x : Job) :
  ¬ known_priority (Priority x) → RemoveJobFromQueue q x = q.
Proof.
  intros Hp. apply unknown_priority_tests in Hp as (HH & HM & HL).
  unfold RemoveJobFromQueue. by rewrite HH, HM, HL.
Qed.

(** [GetJob], when it returns a job, takes it from the head of one of
    the three lanes and leaves the others. *)
Lemma GetJob_lanes (q : JobQueue) (j : Job) (q' : JobQueue) :
  GetJob q = ((j, None), q') →
  ∃ p0, known_priority p0
        ∧ lane (queue q) p0 = j :: lane (queue q') p0
        ∧ (∀ p, p ≠ p0 → lane (queue q') p = lane (queue q) p)
        ∧ deadLetterQueue q' = deadLetterQueue q.
Proof.
  unfold GetJob, known_priority.
  destruct (lane (queue q) High) as [|h hs] eqn:HH.
  - destruct (lane (queue q) Medium) as [|m ms] eqn:HM.
    + destruct (lane (queue q) Low) as [|l ls] eqn:HL; [done|].
      intros [= <- <-]. exists Low. simpl. rewrite lane_insert.
      repeat split; [tauto|done|].
      intros p Hp. by rewrite lane_insert_ne.
    + intros [= <- <-]. exists Medium. simpl. rewrite lane_insert.
      repeat split; [tauto|done|].
      intros p Hp. by rewrite lane_insert_ne.
  - intros [= <- <-]. exists High. simpl. rewrite lane_insert.
    repeat split; [tauto|done|].
    intros p Hp. by rewrite lane_insert_ne.
Qed.

Lemma GetDeadLetterJob_lanes (q : JobQueue) (j : Job) (q' : JobQueue) :
  GetDeadLetterJob q = ((j, None), q') →
  ∃ p0, known_priority p0
        ∧ lane (deadLetterQueue q) p0 = j :: lane (deadLetterQueue q') p0
        ∧ (∀ p, p ≠ p0 →
             lane (deadLetterQueue q') p = lane (deadLetterQueue q) p)
        ∧ queue q' = queue q.
Proof.
  unfold GetDeadLetterJob, known_priority.
  destruct (lane (deadLetterQueue q) High) as [|h hs] eqn:HH.
  - destruct (lane (deadLetterQueue q) Medium) as [|m ms] eqn:HM.
    + destruct (lane (deadLetterQueue q) Low) as [|l ls] eqn:HL; [done|].
      intros [= <- <-]. exists Low. simpl. rewrite lane_insert.
      repeat split; [tauto|done|].
      intros p Hp. by rewrite lane_insert_ne.
    + intros [= <- <-]. exists Medium. simpl. rewrite lane_insert.
      repeat split; [tauto|done|].
      intros p Hp. by rewrite lane_insert_ne.
  - intros [= <- <-]. exists High. simpl. rewrite lane_insert.
    repeat split; [tauto|done|].
    intros p Hp. by rewrite lane_insert_ne.
Qed.

(** A [Get] that returns the error returns the store it was given. *)
Lemma GetJob_error (q : JobQueue) (j : Job) (e : string) (q' : JobQueue) :
  GetJob q = ((j, Some e), q') → q' = q.
Proof.
  unfold GetJob.
  destruct (lane (queue q) High); [|done].
  destruct (lane (queue q) Medium); [|done].
  destruct (lane (queue q) Low); [|done]. by intros [= _ _ <-].
Qed.

Lemma GetDeadLetterJob_error (q : JobQueue) (j : Job) (e : string)
    (q' : JobQueue) :
  GetDeadLetterJob q = ((j, Some e), q') → q' = q.
Proof.
  unfold GetDeadLetterJob.
  destruct (lane (deadLetterQueue q) High); [|done].
  destruct (lane (deadLetterQueue q) Medium); [|done].
  destruct (lane (deadLetterQueue q) Low); [|done]. by intros [= _ _ <-].
Qed.

Lemma RemoveJob_subset (jobs : list Job) (job x : Job) :
  x ∈ RemoveJob jobs job → x ∈ jobs.
Proof.
  induction jobs as [|y jobs IH]; simpl; [done|].
  destruct (String.eqb (ID y) (ID job)).
  - intros Hx. by apply list_elem_of_further.
  - intros [->|Hx]%elem_of_cons; [apply list_elem_of_here|].
    apply list_elem_of_further. by apply IH.
Qed.

(** ** The keys of the maps *)

Lemma dom_insert_lane (m : gmap Z (list Job)) (p : Z) (l : list Job) :
  dom m = ({[High; Medium; Low]} : gset Z) → known_priority p →
  dom (<[p := l]> m) = ({[High; Medium; Low]} : gset Z).
Proof.
  intros Hdom Hp. rewrite dom_insert_L, Hdom.
  destruct Hp as [->|[->| ->]]; set_solver.
Qed.

Lemma has_lanes_call (q : JobQueue) (m : method) :
  has_lanes q → has_lanes (call q m).
Proof.
  intros [Hq Hd]. unfold has_lanes.
  assert (HH : known_priority High) by (by left).
  assert (HM : known_priority Medium) by (by right; left).
  assert (HL : known_priority Low) by (by right; right).
  destruct m as [x| |x|x|]; simpl.
  - unfold AddJob. repeat (destruct (_ =? _); simpl);
      auto using dom_insert_lane.
  - unfold GetJob.
    repeat (destruct (lane (queue q) _); simpl; auto using dom_insert_lane).
  - unfold RemoveJobFromQueue. repeat (destruct (_ =? _); simpl);
      auto using dom_insert_lane.
  - unfold MoveJobToDeadLetterQueue. repeat (destruct (_ =? _); simpl);
      auto using dom_insert_lane.
  - unfold GetDeadLetterJob.
    repeat (destruct (lane (deadLetterQueue q) _); simpl;
            auto using dom_insert_lane).
Qed.

(** ** Jobs and the lanes they are in *)

Lemma lanes_pure_call (q : JobQueue) (m : method) :
  lanes_pure q → lanes_pure (call q m).
Proof.
  intros Hq p x. destruct (Hq p x) as [Hpend Hdead].
  destruct m as [y| |y|y|]; simpl.
  - rewrite AddJob_lane_any, AddJob_deadLetterQueue. split; [|done].
    intros [Hx|Hx]%elem_of_app; [by apply Hpend|].
    destruct (decide _) as [[_ Hy]|]; [|by apply elem_of_nil in Hx].
    apply list_elem_of_singleton in Hx. by subst.
  - destruct (GetJob q) as [[j [e|]] q'] eqn:Hget; simpl.
    + by rewrite (GetJob_error _ _ _ _ Hget).
    + destruct (GetJob_lanes _ _ _ Hget) as (p0 & _ & Hhead & Hrest & ->).
      split; [|done]. destruct (decide (p = p0)) as [->|Hne].
      * intros Hx. apply Hpend. rewrite Hhead. by apply list_elem_of_further.
      * by rewrite Hrest.
  - destruct (decide (known_priority (Priority y))) as [Hk|Hk].
    + destruct (RemoveJobFromQueue_lanes q y p Hk) as [-> ->].
      split; [|done]. destruct (decide _); [|done].
      intros Hx. by apply Hpend, (RemoveJob_subset _ y).
    + by rewrite RemoveJobFromQueue_unknown.
  - destruct (decide (known_priority (Priority y))) as [Hk|Hk].
    + destruct (MoveJobToDeadLetterQueue_lanes q y p Hk) as [-> ->].
      split.
      * destruct (decide _); [|done].
        intros Hx. by apply Hpend, (RemoveJob_subset _ y).
      * intros [Hx|Hx]%elem_of_app; [by apply Hdead|].
        destruct (decide _) as [->|]; [|by apply elem_of_nil in Hx].
        apply list_elem_of_singleton in Hx. by subst.
    + by rewrite MoveJobToDeadLetterQueue_unknown.
  - destruct (GetDeadLetterJob q) as [[j [e|]] q'] eqn:Hget; simpl.
    + by rewrite (GetDeadLetterJob_error _ _ _ _ Hget).
    + destruct (GetDeadLetterJob_lanes _ _ _ Hget)
        as (p0 & _ & Hhead & Hrest & ->).
      split; [done|]. destruct (decide (p = p0)) as [->|Hne].
      * intros Hx. apply Hdead. rewrite Hhead. by apply list_elem_of_further.
      * by rewrite Hrest.
Qed.

Lemma NewQueue_lanes : has_lanes NewQueue ∧ lanes_pure NewQueue.
Proof.
  split.
  - split; vm_compute; reflexivity.
  - assert (Hempty : ∀ p, lane (<[High := []]> (<[Medium := []]> (<[Low := []]> ∅)))
                            p = []).
    { intros p. unfold lane.
      destruct (decide (p = High)) as [->|]; [done|].
      rewrite lookup_insert_ne by done.
      destruct (decide (p = Medium)) as [->|]; [done|].
      rewrite lookup_insert_ne by done.
      destruct (decide (p = Low)) as [->|]; [done|].
      by rewrite lookup_insert_ne, lookup_empty by done. }
    intros p x. unfold NewQueue. simpl. rewrite Hempty.
    split; by intros ?%elem_of_nil.
Qed.

Lemma calls_lanes (ms : list method) (q : JobQueue) :
  has_lanes q ∧ lanes_pure q →
  has_lanes (calls ms q) ∧ lanes_pure (calls ms q).
Proof.
  revert q. induction ms as [|m ms IH]; intros q [Hl Hp]; [done|].
  simpl. apply IH. split; [by apply has_lanes_call|by apply lanes_pure_call].
Qed.

(** X1. Whatever calls are made on a new store, in whatever order, the
    keys of the pending map and of the dead-letter map remain the three
    priorities: no method removes a lane or adds one, and a job of
    another priority never creates a key. *)
Theorem calls_keep_three_lanes (ms : list method) :
  has_lanes (calls ms NewQueue).
Proof. apply calls_lanes, NewQueue_lanes. Qed.

(** X2. Whatever calls are made on a new store, every job sits in the
    lane of its own priority, pending or dead-letter; and when [GetJob]
    returns a job, no pending job has a smaller priority value: the job
    returned is one of the most urgent. *)
Theorem GetJob_returns_most_urgent (ms : list method) :
  let q := calls ms NewQueue in
  lanes_pure q
  ∧ ∀ (j : Job) (q' : JobQueue) (x : Job),
      GetJob q = ((j, None), q') → x ∈ service_order q →
      Priority j ≤ Priority x.
Proof.
  intros q.
  assert (Hpure : lanes_pure q) by apply calls_lanes, NewQueue_lanes.
  split; [done|]. intros j q' x Hget Hx.
  assert (Hin : ∀ p y, y ∈ lane (queue q) p → Priority y = p)
    by (intros p y; apply Hpure).
  assert (Hx' : (x ∈ lane (queue q) High ∧ Priority x = High)
                ∨ (x ∈ lane (queue q) Medium ∧ Priority x = Medium)
                ∨ (x ∈ lane (queue q) Low ∧ Priority x = Low)).
  { unfold service_order in Hx.
    apply elem_of_app in Hx as [Hx|Hx]; [left; split; [done|by apply Hin]|].
    apply elem_of_app in Hx as [Hx|Hx]; [right; left|right; right];
      (split; [done|by apply Hin]). }
  unfold GetJob in Hget.
  destruct (lane (queue q) High) as [|h hs] eqn:HH.
  - destruct (lane (queue q) Medium) as [|m ms'] eqn:HM.
    + destruct (lane (queue q) Low) as [|l ls] eqn:HL; [done|].
      injection Hget as <- _.
      rewrite (Hin Low l) by (rewrite HL; apply list_elem_of_here).
      destruct Hx' as [[Hx' _]|[[Hx' _]|[_ ->]]];
        [by apply elem_of_nil in Hx'|by apply elem_of_nil in Hx'|done].
    + injection Hget as <- _.
      rewrite (Hin Medium m) by (rewrite HM; apply list_elem_of_here).
      destruct Hx' as [[Hx' _]|[[_ ->]|[_ ->]]];
        [by apply elem_of_nil in Hx'|done|unfold Medium, Low; lia].
  - injection Hget as <- _.
    rewrite (Hin High h) by (rewrite HH; apply list_elem_of_here).
    destruct Hx' as [[_ ->]|[[_ ->]|[_ ->]]]; unfold High, Medium, Low; lia.
Qed.


(** ** Adding and getting, interleaved *)

Lemma received_lane (ms : list method) (q : JobQueue) (p : Z) :
  adds_and_gets ms → lanes_pure q → known_priority p →
  of_priority p (received ms q) ++ lane (queue (calls ms q)) p
  = lane (queue q) p ++ of_priority p (added ms).
Proof.
  intros Hms. revert q. induction Hms as [|m ms Hm _ IH]; intros q Hq Hp.
  { by rewrite app_nil_r. }
  specialize (IH (call q m) (lanes_pure_call q m Hq) Hp).
  assert (Hstep : calls (m :: ms) q = calls ms (call q m)) by done.
  rewrite Hstep. clear Hstep.
  destruct m as [x| |x|x|]; try done; cbn [received].
  - change (added (CallAddJob x :: ms)) with (x :: added ms).
    cbn [app]. rewrite IH. cbn [call].
    rewrite AddJob_lane_any, <- app_assoc. f_equal.
    rewrite of_priority_cons.
    destruct (decide (Priority x = p)) as [Hx|Hx].
    + by rewrite decide_True by (by subst).
    + by rewrite decide_False by tauto.
  - change (added (CallGetJob :: ms)) with (added ms).
    cbn [call] in *. destruct (GetJob q) as [[j [e|]] q'] eqn:Hget;
      cbn [returned fst snd app] in *.
    + by rewrite IH, (GetJob_error _ _ _ _ Hget).
    + destruct (GetJob_lanes _ _ _ Hget) as (p0 & _ & Hhead & Hrest & _).
      assert (Hj : Priority j = p0).
      { apply (proj1 (Hq p0 j)). rewrite Hhead. apply list_elem_of_here. }
      rewrite of_priority_cons.
      destruct (decide (Priority j = p)) as [Hjp|Hjp].
      * assert (p0 = p) as -> by congruence.
        rewrite Hhead. cbn [app]. by rewrite IH.
      * cbn [app]. rewrite IH, Hrest; [done|congruence].
  - change (added (CallGetDeadLetterJob :: ms)) with (added ms).
    cbn [call app] in *.
    destruct (GetDeadLetterJob q) as [[j [e|]] q'] eqn:Hget; cbn [snd] in *.
    + by rewrite IH, (GetDeadLetterJob_error _ _ _ _ Hget).
    + destruct (GetDeadLetterJob_lanes _ _ _ Hget) as (_ & _ & _ & _ & Hsame).
      by rewrite IH, Hsame.
Qed.

(** X3. [AddJob] and [GetJob] calls are made on a new store in any order
    (with [GetDeadLetterJob] calls in between). For each of the three
    priorities, the jobs of that priority that [GetJob] has returned,
    followed by those still in the lane, are the jobs of that priority
    that were added, in the order in which they were added: within a
    priority no job overtakes another, none is lost and none comes out
    twice. *)
Theorem interleaved_AddJob_GetJob_fifo (ms : list method) (p : Z) :
  adds_and_gets ms → known_priority p →
  of_priority p (received ms NewQueue) ++ lane (queue (calls ms NewQueue)) p
  = of_priority p (added ms).
Proof.
  intros Hms Hp.
  rewrite (received_lane ms NewQueue p Hms (proj2 NewQueue_lanes) Hp).
  destruct Hp as [->|[->| ->]]; reflexivity.
Qed.

(** ** Removing a job *)

Lemma RemoveJob_snoc_fresh (jobs : list Job) (job : Job) :
  no_entry_with_ID job jobs → RemoveJob (jobs ++ [job]) job = jobs.
Proof.
  intros Hfresh.
  rewrite (RemoveJob_first jobs [] job job Hfresh eq_refl).
  apply app_nil_r.
Qed.

Lemma RemoveJob_snoc_stale (before after : list Job) (j job : Job) :
  no_entry_with_ID job before → ID j = ID job →
  RemoveJob ((before ++ j :: after) ++ [job]) job = before ++ after ++ [job].
Proof.
  intros Hb Hj. rewrite <- app_assoc. cbn [app].
  by rewrite (RemoveJob_first before (after ++ [job]) j job Hb Hj).
Qed.

(** X4. For a job of priority High, Medium or Low, [RemoveJobFromQueue]
    takes out of the lane of that priority the first entry that has
    the job's ID, whatever its other fields, and keeps every other
    entry, later entries with the same ID included, in order. No other
    lane and no dead-letter lane changes. *)
Theorem RemoveJobFromQueue_removes_first_match
    (q : JobQueue) (job j : Job) (before after : list Job) :
  known_priority (Priority job) →
  lane (queue q) (Priority job) = before ++ j :: after →
  no_entry_with_ID job before → ID j = ID job →
  let q' := RemoveJobFromQueue q job in
  lane (queue q') (Priority job) = before ++ after
  ∧ (∀ p, p ≠ Priority job → lane (queue q') p = lane (queue q) p)
  ∧ deadLetterQueue q' = deadLetterQueue q.
Proof.
  intros Hk Hlane Hb Hj q'. split; [|split].
  - unfold q'. rewrite (proj1 (RemoveJobFromQueue_lanes q job _ Hk)).
    rewrite decide_True by done. rewrite Hlane. by apply RemoveJob_first.
  - intros p Hp. unfold q'.
    rewrite (proj1 (RemoveJobFromQueue_lanes q job _ Hk)).
    by rewrite decide_False.
  - apply (RemoveJobFromQueue_lanes q job (Priority job) Hk).
Qed.

(** X5. [AddJob] followed by [RemoveJobFromQueue] of the same job gives
    back the lanes the store had when no entry of the lane had the
    job's ID. When the lane had one, the call removes the first one of
    them, an older entry, and the job that was just added stays at the
    tail of the lane. *)
Theorem AddJob_then_RemoveJobFromQueue (q : JobQueue) (job : Job) :
  known_priority (Priority job) →
  let l := lane (queue q) (Priority job) in
  let q' := RemoveJobFromQueue (AddJob q job) job in
  (no_entry_with_ID job l → ∀ p, lane (queue q') p = lane (queue q) p)
  ∧ (∀ before j after,
       l = before ++ j :: after → no_entry_with_ID job before →
       ID j = ID job →
       lane (queue q') (Priority job) = before ++ after ++ [job])
  ∧ deadLetterQueue q' = deadLetterQueue q.
Proof.
  intros Hk l q'.
  assert (Hlane : ∀ p, lane (queue q') p
            = if decide (p = Priority job) then RemoveJob (l ++ [job]) job
              else lane (queue q) p).
  { intros p. unfold q'.
    rewrite (proj1 (RemoveJobFromQueue_lanes _ job p Hk)).
    rewrite !AddJob_lane_any. destruct (decide (p = Priority job)) as [->|Hne].
    - by rewrite decide_True.
    - rewrite decide_False by (intros [_ ?]; congruence).
      by rewrite app_nil_r. }
  split; [|split].
  - intros Hfresh p. rewrite Hlane.
    destruct (decide (p = Priority job)) as [->|]; [|done].
    by apply RemoveJob_snoc_fresh.
  - intros before j after Hl Hb Hj. rewrite Hlane, decide_True by done.
    rewrite Hl. by apply RemoveJob_snoc_stale.
  - unfold q'.
    rewrite (proj2 (RemoveJobFromQueue_lanes _ job (Priority job) Hk)).
    apply AddJob_deadLetterQueue.
Qed.


(** ** The dead-letter lanes *)

Lemma drain_dead_order (n : nat) (q : JobQueue) :
  fst (drain_dead n q) = take n (dead_letter_order q)
  ∧ dead_letter_order (snd (drain_dead n q)) = drop n (dead_letter_order q)
  ∧ queue (snd (drain_dead n q)) = queue q.
Proof.
  revert q. induction n as [|n IH]; intros q; [done|].
  simpl. destruct (dead_letter_order q) as [|j rest] eqn:Hso.
  - rewrite (GetDeadLetterJob_none q Hso). simpl. by rewrite Hso.
  - destruct (GetDeadLetterJob_some q j rest Hso) as (q' & -> & Hrest & Hq).
    specialize (IH q'). destruct (drain_dead n q') as [js q''].
    simpl in *. destruct IH as (-> & -> & ->). by rewrite Hrest.
Qed.

Lemma drain_deadLetterQueue (n : nat) (q : JobQueue) :
  deadLetterQueue (snd (drain n q)) = deadLetterQueue q.
Proof.
  revert q. induction n as [|n IH]; intros q; [done|].
  simpl. pose proof (GetJob_deadLetterQueue q) as Hd.
  destruct (GetJob q) as [[j [e|]] q']; [done|].
  specialize (IH q'). destruct (drain n q') as [js q'']. simpl in *.
  by rewrite IH.
Qed.

Lemma MoveJobs_dead_lane (jobs : list Job) (q : JobQueue) (p : Z) :
  Forall (λ j, known_priority (Priority j)) jobs →
  lane (deadLetterQueue (MoveJobs q jobs)) p
  = lane (deadLetterQueue q) p ++ of_priority p jobs.
Proof.
  intros Hall. revert q.
  induction Hall as [|j rest Hj _ IH]; intros q.
  - by rewrite of_priority_nil, app_nil_r.
  - unfold MoveJobs in *. simpl. rewrite IH.
    rewrite (proj2 (MoveJobToDeadLetterQueue_lanes q j p Hj)).
    rewrite <- app_assoc. f_equal. rewrite of_priority_cons.
    destruct (decide (p = Priority j)) as [->|Hne].
    + by rewrite decide_True.
    + by rewrite decide_False.
Qed.

(** X6. Jobs with priorities among High, Medium and Low are moved to the
    dead-letter lanes of a new store in any order; then
    [GetDeadLetterJob] returns every High job, then every Medium job,
    then every Low job, each group in the order in which its jobs were
    moved, and after the last one it returns the error. *)
Theorem GetDeadLetterJob_priority_then_fifo (jobs : list Job) :
  Forall (λ j, known_priority (Priority j)) jobs →
  let q := MoveJobs NewQueue jobs in
  let expected :=
    of_priority High jobs ++ of_priority Medium jobs ++ of_priority Low jobs in
  fst (drain_dead (length jobs) q) = expected
  ∧ (∀ n, fst (drain_dead n q) = take n expected)
  ∧ snd (fst (GetDeadLetterJob (snd (drain_dead (length jobs) q))))
    = no_job_found.
Proof.
  intros Hall q expected.
  assert (Hso : dead_letter_order q = expected).
  { unfold dead_letter_order, q. by rewrite !MoveJobs_dead_lane. }
  assert (Hlen : length expected = length jobs).
  { unfold expected. rewrite !length_app, Nat.add_assoc.
    by apply of_priority_lengths. }
  split; [|split].
  - rewrite (proj1 (drain_dead_order _ _)), Hso, <- Hlen. apply firstn_all.
  - intros n. by rewrite (proj1 (drain_dead_order _ _)), Hso.
  - rewrite GetDeadLetterJob_none; [done|].
    rewrite (proj1 (proj2 (drain_dead_order _ _))), Hso, <- Hlen.
    apply drop_all.
Qed.

(** X7. On any store, the three slices that [GetAllJobs] returns, put
    end to end, are the jobs that successive [GetJob] calls return, in
    that order, and the calls leave the dead-letter lanes as
    [GetAllDeadLetterJobs] shows them; the same holds of
    [GetAllDeadLetterJobs] and [GetDeadLetterJob], which leave the
    pending lanes as they are. *)
Theorem GetAllJobs_is_the_service_order (n : nat) (q : JobQueue) :
  let '(high, medium, low) := GetAllJobs q in
  let '(dead_high, dead_medium, dead_low) := GetAllDeadLetterJobs q in
  fst (drain n q) = take n (high ++ medium ++ low)
  ∧ GetAllDeadLetterJobs (snd (drain n q)) = (dead_high, dead_medium, dead_low)
  ∧ fst (drain_dead n q) = take n (dead_high ++ dead_medium ++ dead_low)
  ∧ GetAllJobs (snd (drain_dead n q)) = (high, medium, low).
Proof.
  unfold GetAllJobs, GetAllDeadLetterJobs.
  split; [apply drain_service_order|].
  split; [by rewrite drain_deadLetterQueue|].
  split; [apply drain_dead_order|].
  by rewrite (proj2 (proj2 (drain_dead_order n q))).
Qed.

(** ** The theorems at sample inputs *)

Lemma interleaved_fifo_sample :
  of_priority High
    (received [CallAddJob samples.job_a; CallGetJob; CallAddJob samples.job_d;
               CallAddJob samples.job_b]
              NewQueue)
  ++ lane (queue (calls [CallAddJob samples.job_a; CallGetJob;
                         CallAddJob samples.job_d; CallAddJob samples.job_b]
                        NewQueue)) High
  = [samples.job_a; samples.job_d].
Proof.
  refine (interleaved_AddJob_GetJob_fifo
            [CallAddJob samples.job_a; CallGetJob; CallAddJob samples.job_d;
             CallAddJob samples.job_b] High _ _).
  - repeat constructor.
  - by left.
Defined.

Lemma RemoveJobFromQueue_first_match_sample :
  lane (queue (RemoveJobFromQueue
                 (AddJobs NewQueue [samples.job_a; samples.job_d; samples.job_a])
                 samples.job_a)) High
  = [samples.job_d; samples.job_a].
Proof.
  refine (proj1 (RemoveJobFromQueue_removes_first_match
                   (AddJobs NewQueue [samples.job_a; samples.job_d; samples.job_a])
                   samples.job_a samples.job_a []
                   [samples.job_d; samples.job_a] _ _ _ _)).
  - by left.
  - reflexivity.
  - constructor.
  - reflexivity.
Defined.

Lemma AddJob_then_RemoveJobFromQueue_sample :
  lane (queue (RemoveJobFromQueue
                 (AddJob (AddJobs NewQueue [samples.job_a]) samples.job_d)
                 samples.job_d)) High
  = lane (queue (AddJobs NewQueue [samples.job_a])) High.
Proof.
  refine (proj1 (AddJob_then_RemoveJobFromQueue
                   (AddJobs NewQueue [samples.job_a]) samples.job_d _) _ High).
  - by left.
  - repeat constructor. discriminate.
Defined.

Lemma GetDeadLetterJob_priority_then_fifo_sample :
  fst (drain_dead 3 (MoveJobs NewQueue
                       [samples.job_c; samples.job_a; samples.job_d]))
  = [samples.job_a; samples.job_d; samples.job_c].
Proof.
  refine (proj1 (GetDeadLetterJob_priority_then_fifo
                   [samples.job_c; samples.job_a; samples.job_d] _)).
  repeat (constructor; [known_sample|]). constructor.
Defined.

End queue_calls.

(** * More on the scheduler: what runs schedule and promote *)

Module scheduler_runs.
Import scheduler scheduler_props.

#[local] Arguments heap_Pop : simpl never.

Lemma storable_single (x : utils.Job) :
  storable [x]
  = if decide (utils.known_priority (utils.Priority x)) then [x] else [].
Proof. unfold storable. rewrite filter_cons. by destruct (decide _). Qed.

Lemma service_order_AddJob (q : queue.JobQueue) (x : utils.Job) :
  queue.service_order (queue.AddJob q x)
  ≡ₚ queue.service_order q ++ storable [x].
Proof.
  rewrite storable_single. unfold queue.service_order.
  destruct (decide (utils.known_priority (utils.Priority x))) as [Hk|Hk].
  - rewrite !queue_props.AddJob_lane, !queue_props.of_priority_single by done.
    destruct (queue_props.known_priority_cases _ Hk) as [Hp|[Hp|Hp]];
      rewrite Hp; unfold utils.High, utils.Medium, utils.Low;
      repeat (case_decide; try lia); rewrite ?app_nil_r.
    + rewrite <- !app_assoc. apply Permutation_app_head.
      rewrite (app_assoc _ _ [x]). apply Permutation_app_comm.
    + rewrite <- !app_assoc. do 2 apply Permutation_app_head.
      apply Permutation_app_comm.
    + by rewrite <- !app_assoc.
  - rewrite queue_props.AddJob_unknown by done. by rewrite app_nil_r.
Qed.

Lemma Job_entries (h : JobHeap) : Job <$> h = fst <$> (entry <$> h).
Proof. by rewrite <- list_fmap_compose. Qed.

Lemma ScheduleTime_entries (h : JobHeap) :
  ScheduleTime <$> h = snd <$> (entry <$> h).
Proof. by rewrite <- list_fmap_compose. Qed.

(** An iteration of the poller on an ordered heap: nothing, or the root
    goes from the heap to the store. *)
Lemma poller_tick_popped (now : Z) (s : Scheduler) :
  heap_ordered (heap s) (length (heap s)) →
  (popped now s = [] ∧ poller_tick now s = s)
  ∨ ∃ next h',
      popped now s = [next]
      ∧ ScheduleTime next < now
      ∧ poller_tick now s = mkScheduler h' (queue.AddJob (queue s) (Job next))
      ∧ entry next :: (entry <$> h') ≡ₚ entry <$> heap s
      ∧ S (length h') = length (heap s)
      ∧ heap_ordered h' (length h')
      ∧ ∀ e, e ∈ heap s → ScheduleTime next ≤ ScheduleTime e.
Proof.
  intros Hord. unfold popped, poller_tick, Len, Time_After.
  destruct (heap s) as [|next rest] eqn:Hh; [by left|]. simpl.
  destruct (bool_decide_reflect (ScheduleTime next < now)) as [Hdue|];
    [|by left].
  rewrite <- Hh in Hord.
  destruct (heap_Pop_spec (heap s) next rest Hh Hord)
    as (e & h' & Hpop & _ & Hlen & Hperm & Hord').
  right. exists next, h'. rewrite <- Hh, Hpop.
  repeat split; try done.
  - by rewrite Hh in Hperm.
  - by rewrite Hlen.
  - intros x [i Hx]%list_elem_of_lookup.
    pose proof (ordered_root_earliest _ Hord i x Hx) as Hmin.
    unfold time_at in Hmin. by rewrite Hh in Hmin.
Qed.

Lemma storable_app (l l' : list utils.Job) :
  storable (l ++ l') = storable l ++ storable l'.
Proof. apply filter_app. Qed.

Lemma storable_Permutation (l l' : list utils.Job) :
  l ≡ₚ l' → storable l ≡ₚ storable l'.
Proof. intros Hl. unfold storable. by rewrite Hl. Qed.

Lemma step_conserves (s : Scheduler) (o : op) :
  heap_ordered (heap s) (length (heap s)) →
  storable (Job <$> heap (step s o)) ++ queue.service_order (queue (step s o))
  ≡ₚ (storable (Job <$> heap s) ++ queue.service_order (queue s))
     ++ storable (scheduled [o]).
Proof.
  intros Hord. destruct o as [now j delay|now].
  - change (scheduled [OpSchedule now j delay]) with [j].
    cbn [step Scheduler_Scheduler heap queue].
    assert (Hpush : Job <$> heap_Push (heap s)
                              (mkScheduleJob j (Time_Add now delay) 0)
                    ≡ₚ [j] ++ (Job <$> heap s)).
    { rewrite !Job_entries, heap_Push_entries. done. }
    rewrite (storable_Permutation _ _ Hpush), storable_app.
    rewrite (Permutation_app_comm (storable [j])).
    rewrite <- !app_assoc. apply Permutation_app_head.
    apply Permutation_app_comm.
  - change (scheduled [OpTick now]) with (@nil utils.Job).
    change (storable []) with (@nil utils.Job). rewrite app_nil_r.
    cbn [step].
    destruct (poller_tick_popped now s Hord)
      as [[_ ->]|(next & h' & _ & _ & -> & Hperm & _)]; [done|].
    cbn [heap queue]. rewrite service_order_AddJob.
    assert (Hpop : Job <$> heap s ≡ₚ [Job next] ++ (Job <$> h')).
    { rewrite !Job_entries, <- Hperm. done. }
    rewrite (storable_Permutation _ _ Hpop), storable_app.
    rewrite (Permutation_app_comm (storable [Job next])).
    rewrite <- !app_assoc. apply Permutation_app_head.
    apply Permutation_app_comm.
Qed.

Lemma scheduled_cons (o : op) (ops : list op) :
  scheduled (o :: ops) = scheduled [o] ++ scheduled ops.
Proof. unfold scheduled. simpl. by rewrite app_nil_r. Qed.

Lemma run_conserves (ops : list op) (s : Scheduler) :
  heap_ordered (heap s) (length (heap s)) →
  storable (Job <$> heap (run ops s)) ++ queue.service_order (queue (run ops s))
  ≡ₚ (storable (Job <$> heap s) ++ queue.service_order (queue s))
     ++ storable (scheduled ops).
Proof.
  revert s. induction ops as [|o ops IH]; intros s Hord.
  - simpl. by rewrite app_nil_r.
  - change (run (o :: ops) s) with (run ops (step s o)).
    rewrite IH by (by apply step_ordered).
    rewrite step_conserves by done.
    rewrite (scheduled_cons o ops), storable_app.
    by rewrite <- !app_assoc.
Qed.

(** X8. After any sequence of calls of [Scheduler] and iterations of the
    poller, the jobs that are in the heap or pending in the store are
    the jobs the store had when the scheduler was made and the jobs
    that were scheduled, each as many times as it was scheduled: the
    poller loses no job and promotes none twice. This holds of the jobs
    whose priority is High, Medium or Low; a job of another priority is
    popped from the heap and dropped by [AddJob]. *)
Theorem scheduler_conserves_jobs (q : queue.JobQueue) (ops : list op) :
  let s := run ops (NewScheduler q) in
  storable (Job <$> heap s) ++ queue.service_order (queue s)
  ≡ₚ queue.service_order q ++ storable (scheduled ops).
Proof.
  intros s. unfold s.
  by rewrite run_conserves by apply NewScheduler_ordered.
Qed.


(** ** Iterations of the poller, one after the other *)

Lemma run_ticks_cons (now : Z) (nows : list Z) (s : Scheduler) :
  run (OpTick <$> now :: nows) s = run (OpTick <$> nows) (poller_tick now s).
Proof. done. Qed.

Lemma promotions_ticks_cons (now : Z) (nows : list Z) (s : Scheduler) :
  promotions (OpTick <$> now :: nows) s
  = popped now s ++ promotions (OpTick <$> nows) (poller_tick now s).
Proof. done. Qed.

Lemma ticks_promote (nows : list Z) (s : Scheduler) :
  heap_ordered (heap s) (length (heap s)) →
  let out := promotions (OpTick <$> nows) s in
  let s' := run (OpTick <$> nows) s in
  nondecreasing (ScheduleTime <$> out)
  ∧ queue s' = queue.AddJobs (queue s) (Job <$> out)
  ∧ (entry <$> out) ++ (entry <$> heap s') ≡ₚ entry <$> heap s
  ∧ (length out ≤ length nows)%nat.
Proof.
  revert s. induction nows as [|now nows IH]; intros s Hord.
  { split; [done|]. split; [done|]. split; [done|]. simpl. lia. }
  cbv zeta. rewrite run_ticks_cons, promotions_ticks_cons.
  destruct (poller_tick_popped now s Hord)
    as [[-> ->]|(next & h' & -> & _ & Htick & Hperm & _ & Hord' & Hmin)].
  - destruct (IH s Hord) as (Hsorted & Hq & Hout & Hlen).
    split; [done|]. split; [done|]. split; [done|]. simpl. lia.
  - rewrite Htick.
    destruct (IH (mkScheduler h' (queue.AddJob (queue s) (Job next))) Hord')
      as (Hsorted & Hq & Hout & Hlen).
    cbn [heap queue] in *.
    split; [|split; [|split]].
    + cbn [app fmap list_fmap nondecreasing]. split; [|done].
      apply Forall_forall. intros t Ht.
      apply list_elem_of_fmap in Ht as (e & -> & He).
      assert (Hin : entry e ∈ entry <$> heap s).
      { rewrite <- Hperm. apply list_elem_of_further.
        rewrite <- Hout. apply elem_of_app. left.
        by apply list_elem_of_fmap_2. }
      apply list_elem_of_fmap in Hin as (e0 & He0 & Hin).
      specialize (Hmin e0 Hin).
      assert (ScheduleTime e = ScheduleTime e0) by (by injection He0).
      lia.
    + by rewrite Hq.
    + cbn [app fmap list_fmap]. by rewrite <- Hperm, <- Hout.
    + simpl. lia.
Qed.

(** X9. However many iterations the poller makes in a row on a scheduler
    reached from [NewScheduler], and whatever the clock shows at each,
    the entries it pops come out in nondecreasing order of
    [ScheduleTime]; their jobs are added to the store by [AddJob] in
    that order; the entries popped and the entries left are the entries
    the heap had; and no more entries are popped than iterations are
    made. *)
Theorem poller_promotes_in_time_order
    (q : queue.JobQueue) (ops : list op) (nows : list Z) :
  let s := run ops (NewScheduler q) in
  let out := promotions (OpTick <$> nows) s in
  let s' := run (OpTick <$> nows) s in
  nondecreasing (ScheduleTime <$> out)
  ∧ queue s' = queue.AddJobs (queue s) (Job <$> out)
  ∧ (entry <$> out) ++ (entry <$> heap s') ≡ₚ entry <$> heap s
  ∧ (length out ≤ length nows)%nat.
Proof. apply ticks_promote, run_NewScheduler_ordered. Qed.

Lemma ticks_drain (now : Z) (k : nat) (s : Scheduler) :
  heap_ordered (heap s) (length (heap s)) →
  (∀ e, e ∈ heap s → ScheduleTime e < now) →
  (k ≤ length (heap s))%nat →
  length (heap (run (OpTick <$> replicate k now) s)) = (length (heap s) - k)%nat
  ∧ length (promotions (OpTick <$> replicate k now) s) = k.
Proof.
  revert s. induction k as [|k IH]; intros s Hord Hdue Hk.
  { split; [|done]. simpl. lia. }
  cbn [replicate]. rewrite run_ticks_cons, promotions_ticks_cons.
  destruct (poller_tick_popped now s Hord)
    as [[Hnone _]|(next & h' & -> & _ & -> & Hperm & Hlen' & Hord' & _)].
  - exfalso. unfold popped, Time_After in Hnone.
    destruct (heap s) as [|next rest] eqn:Hh; [simpl in Hk; lia|].
    simpl in Hnone.
    rewrite bool_decide_eq_true_2 in Hnone; [done|].
    apply Hdue. apply list_elem_of_here.
  - destruct (IH (mkScheduler h' (queue.AddJob (queue s) (Job next))))
      as [Hrest Hout]; cbn [heap]; [done| |lia|].
    + intros e He.
      assert (Hin : entry e ∈ entry <$> heap s).
      { rewrite <- Hperm. apply list_elem_of_further.
        by apply list_elem_of_fmap_2. }
      apply list_elem_of_fmap in Hin as (e0 & He0 & Hin).
      specialize (Hdue e0 Hin).
      assert (ScheduleTime e = ScheduleTime e0) by (by injection He0).
      lia.
    + cbn [heap] in Hrest. split; [lia|]. simpl. by rewrite Hout.
Qed.

(** X10. When every entry of the heap of a scheduler reached from
    [NewScheduler] is due strictly before the clock reading, each
    iteration of the poller pops exactly one entry: after [k] iterations
    an overdue backlog of [n] entries still holds [n - k] of them, and
    it takes [n] iterations, not one, to empty the heap. *)
Theorem overdue_backlog_drains_one_per_tick
    (q : queue.JobQueue) (ops : list op) (now : Z) (k : nat) :
  let s := run ops (NewScheduler q) in
  let n := length (heap s) in
  (∀ e, e ∈ heap s → ScheduleTime e < now) →
  (k ≤ n)%nat →
  length (heap (run (OpTick <$> replicate k now) s)) = (n - k)%nat
  ∧ length (promotions (OpTick <$> replicate k now) s) = k
  ∧ heap (run (OpTick <$> replicate n now) s) = [].
Proof.
  intros s n Hdue Hk.
  assert (Hord : heap_ordered (heap s) (length (heap s)))
    by apply run_NewScheduler_ordered.
  destruct (ticks_drain now k s Hord Hdue Hk) as [Hleft Hout].
  split; [done|]. split; [done|].
  destruct (ticks_drain now n s Hord Hdue (le_n _)) as [Hempty _].
  apply nil_length_inv. rewrite Hempty. unfold n. lia.
Qed.

Lemma overdue_backlog_sample :
  length (heap (run (OpTick <$> replicate 1 10) samples.backlog)) = 1%nat
  ∧ heap (run (OpTick <$> replicate 2 10) samples.backlog) = [].
Proof.
  assert (Hdue : ∀ e, e ∈ heap samples.backlog → ScheduleTime e < 10).
  { intros e He. vm_compute in He.
    repeat (apply elem_of_cons in He as [->|He]; [vm_compute; reflexivity|]).
    by apply elem_of_nil in He. }
  assert (Hk : (1 ≤ length (heap samples.backlog))%nat) by (vm_compute; lia).
  pose proof (overdue_backlog_drains_one_per_tick
                queue.NewQueue
                [OpSchedule 0 samples.job_a 1; OpSchedule 0 samples.job_b 2]
                10 1 Hdue Hk) as (Hleft & _ & Hempty).
  split; [exact Hleft | exact Hempty].
Defined.

End scheduler_runs.

(** * Runs of the workers *)

Module worker_runs.
Import utils queue worker worker_props.

(** ** Where the jobs of a system come from *)

Lemma AddJob_service_order (q : JobQueue) (x y : Job) :
  y ∈ service_order (AddJob q x) → y ∈ service_order q ∨ y = x.
Proof.
  unfold service_order. rewrite !queue_calls.AddJob_lane_any.
  rewrite !elem_of_app.
  intros [[H|H]|[[H|H]|[H|H]]]; try (left; tauto);
    case_decide; try (by apply elem_of_nil in H);
    apply list_elem_of_singleton in H; by right.
Qed.

Lemma MoveJobToDeadLetterQueue_service_order (q : JobQueue) (x y : Job) :
  y ∈ service_order (MoveJobToDeadLetterQueue q x) → y ∈ service_order q.
Proof.
  destruct (decide (known_priority (Priority x))) as [Hk|Hk];
    [|by rewrite queue_props.MoveJobToDeadLetterQueue_unknown].
  unfold service_order.
  rewrite !(proj1 (queue_props.MoveJobToDeadLetterQueue_lanes q x _ Hk)).
  rewrite !elem_of_app.
  intros [H|[H|H]]; case_decide;
    try apply queue_calls.RemoveJob_subset in H; tauto.
Qed.

Lemma MoveJobToDeadLetterQueue_dead_letter_order (q : JobQueue) (x y : Job) :
  y ∈ dead_letter_order (MoveJobToDeadLetterQueue q x) →
  y ∈ dead_letter_order q ∨ y = x.
Proof.
  destruct (decide (known_priority (Priority x))) as [Hk|Hk];
    [|rewrite queue_props.MoveJobToDeadLetterQueue_unknown by done; tauto].
  unfold dead_letter_order.
  rewrite !(proj2 (queue_props.MoveJobToDeadLetterQueue_lanes q x _ Hk)).
  rewrite !elem_of_app.
  intros [[H|H]|[[H|H]|[H|H]]]; try (left; tauto);
    case_decide; try (by apply elem_of_nil in H);
    apply list_elem_of_singleton in H; by right.
Qed.

Section Invariants.

Variable large : Z → Z.
Variables S R W D H : Job → Prop.
Hypothesis woken : ∀ x, W x → S x.
Hypothesis taken : ∀ x, S x → ID x ≠ ""%string → R x ∧ H x.
Hypothesis retried :
  ∀ x, R x → handleJob x ≠ None →
       RetryCount (bump x) ≤ MaxRetries (bump x) → W (bump x).
Hypothesis given_up :
  ∀ x, R x → handleJob x ≠ None →
       MaxRetries (bump x) < RetryCount (bump x) → D (bump x).

Lemma exec_all_jobs (s : System) (e : event) :
  allowed S e →
  all_jobs S R W D H s → all_jobs S R W D H (exec large s e).
Proof using woken taken retried given_up.
  intros He Hall.
  destruct e as [|i|i|x]; cbn [exec].
  - (* Poll *)
    destruct (service_order (store s)) as [|x rest] eqn:Hso.
    { by rewrite poll_empty. }
    destruct (poll_head s x rest Hso) as (q' & Hget & Hrest & Hdl).
    destruct Hall as (HS & HR & HW & HD & HH).
    rewrite Hso in HS. apply Forall_cons in HS as [Hx HS].
    unfold poll. rewrite Hget.
    destruct (String.eqb_spec (ID x) ""%string) as [Hid|Hid];
      unfold all_jobs, dead_letter_order in *;
      cbn [store running timers handled]; rewrite Hrest, Hdl.
    + done.
    + destruct (taken x Hx Hid).
      repeat split; try done; apply Forall_app; by repeat constructor.
  - (* Finish *)
    unfold finish. destruct (running s !! i) as [x|] eqn:Hi; [|done].
    destruct Hall as (HS & HR & HW & HD & HH).
    assert (Hx : R x).
    { eapply Forall_forall; [exact HR|]. by eapply list_elem_of_lookup_2. }
    assert (HR' : Forall R (delete i (running s))) by (by apply Forall_delete).
    destruct (handleJob x) as [err|] eqn:Herr; [|done].
    unfold on_failure.
    destruct (Z.leb_spec (RetryCount (bump x)) (MaxRetries (bump x))) as [Hle|Hgt].
    + unfold all_jobs. cbn [store running timers handled].
      repeat split; try done.
      rewrite fmap_app. apply Forall_app. split; [done|].
      repeat constructor. apply retried; [done|by rewrite Herr|done].
    + unfold all_jobs. cbn [store running timers handled].
      repeat split; try done.
      * apply Forall_forall. intros y Hy.
        apply MoveJobToDeadLetterQueue_service_order in Hy.
        by eapply Forall_forall in HS.
      * apply Forall_forall. intros y Hy.
        apply MoveJobToDeadLetterQueue_dead_letter_order in Hy as [Hy| ->].
        -- by eapply Forall_forall in HD.
        -- apply given_up; [done|by rewrite Herr|done].
  - (* Fire *)
    unfold fire. destruct (timers s !! i) as [[delay x]|] eqn:Hi; [|done].
    destruct Hall as (HS & HR & HW & HD & HH).
    assert (Hx : W x).
    { eapply Forall_forall; [exact HW|].
      apply list_elem_of_fmap. exists (delay, x). split; [done|].
      by eapply list_elem_of_lookup_2. }
    unfold all_jobs. cbn [store running timers handled].
    rewrite queue_props.dead_AddJob.
    repeat split; try done.
    + apply Forall_forall. intros y Hy.
      apply AddJob_service_order in Hy as [Hy| ->]; [|by apply woken].
      by eapply Forall_forall in HS.
    + rewrite list_fmap_delete. by apply Forall_delete.
  - (* Submit *)
    destruct Hall as (HS & HR & HW & HD & HH).
    unfold submit, all_jobs. cbn [store running timers handled].
    rewrite queue_props.dead_AddJob.
    repeat split; try done.
    apply Forall_forall. intros y Hy.
    apply AddJob_service_order in Hy as [Hy| ->]; [|done].
    by eapply Forall_forall in HS.
Qed.

Lemma execs_all_jobs (es : list event) (s : System) :
  Forall (allowed S) es →
  all_jobs S R W D H s → all_jobs S R W D H (execs large es s).
Proof using woken taken retried given_up.
  intros Hes. revert s. induction Hes as [|e es He _ IH]; intros s Hs; [done|].
  simpl. apply IH. by apply exec_all_jobs.
Qed.

End Invariants.

Lemma idle_all_jobs (S R W D H : Job → Prop) : all_jobs S R W D H idle.
Proof. repeat split; by vm_compute. Qed.


Lemma bump_handleJob (x : Job) : handleJob (bump x) = handleJob x.
Proof. done. Qed.

Lemma bump_one_of (jobs : list Job) (x : Job) :
  one_of jobs x → one_of jobs (bump x).
Proof.
  intros (y & Hy & Hx). exists y. split; [done|].
  destruct x, y. unfold with_retries, bump in *. simpl in *.
  injection Hx as Hi Ht Hp Hr Hm Hc. by subst.
Qed.

Lemma submitted_allowed (es : list event) :
  Forall (allowed (one_of (submitted es))) es.
Proof.
  apply Forall_forall. intros [| | |y] He; try done. simpl.
  exists y. split; [|by rewrite with_retries_same].
  apply list_elem_of_In, in_flat_map. exists (Submit y).
  split; [by apply list_elem_of_In|by left].
Qed.

(** X11. A job with the empty ID never reaches [handleJob]: whatever
    jobs the producers add and however the workers and the retry
    goroutines are interleaved, starting from a new store, the job of
    each worker, the job of each retry goroutine, each dead-letter job
    and the argument of each call of [handleJob] has an ID that is not
    empty. The worker that takes a job with the empty ID from the store
    drops it: the job leaves the pending lanes and nothing else
    changes. *)
Theorem unnamed_jobs_are_dropped (large : Z → Z) (es : list event) :
  let s := execs large es idle in
  Forall (λ x, ID x ≠ ""%string)
         (running s ++ (snd <$> timers s) ++ dead_letter_order (store s)
          ++ handled s)
  ∧ ∀ x rest,
      service_order (store s) = x :: rest → ID x = ""%string →
      service_order (store (poll s)) = rest
      ∧ deadLetterQueue (store (poll s)) = deadLetterQueue (store s)
      ∧ running (poll s) = running s
      ∧ timers (poll s) = timers s
      ∧ handled (poll s) = handled s.
Proof.
  intros s. split.
  - pose (P := λ x : Job, ID x ≠ ""%string).
    assert (Hall : all_jobs (λ _, True) P P P P s).
    { apply execs_all_jobs; try done; try apply idle_all_jobs.
      apply Forall_forall. by intros [| | |y]. }
    destruct Hall as (_ & HR & HW & HD & HH).
    rewrite !Forall_app. by repeat split.
  - intros x rest Hso Hx.
    destruct (poll_head s x rest Hso) as (q' & Hget & Hrest & Hdl).
    unfold poll. rewrite Hget, Hx. done.
Qed.

(** X12. Retries and the dead-letter queue are for failures only, on
    either side of the limit: in any interleaving from a new store,
    whatever jobs are added, the job of each retry goroutine is one
    [handleJob] fails for and has a retry count that is at most its
    [MaxRetries], and each dead-letter job is one [handleJob] fails for
    and has a retry count above its [MaxRetries]. *)
Theorem retried_within_limit_dead_letter_above
    (large : Z → Z) (es : list event) :
  let s := execs large es idle in
  Forall (λ x, handleJob x ≠ None ∧ RetryCount x ≤ MaxRetries x)
         (snd <$> timers s)
  ∧ Forall (λ x, handleJob x ≠ None ∧ MaxRetries x < RetryCount x)
           (dead_letter_order (store s)).
Proof.
  intros s.
  assert (Hall : all_jobs (λ _, True) (λ _, True)
            (λ x, handleJob x ≠ None ∧ RetryCount x ≤ MaxRetries x)
            (λ x, handleJob x ≠ None ∧ MaxRetries x < RetryCount x)
            (λ _, True) s).
  { apply execs_all_jobs; try done; try apply idle_all_jobs.
    apply Forall_forall. by intros [| | |y]. }
  by destruct Hall as (_ & _ & HW & HD & _).
Qed.

(** X13. The workers and the retry goroutines make no job and change
    none but for its retry count: in any interleaving from a new store,
    each pending job, the job of each worker and of each retry
    goroutine, each dead-letter job and the argument of each call of
    [handleJob] is a job a producer of the interleaving added, with
    that job's ID, type, payload, priority, [MaxRetries] and creation
    time. *)
Theorem held_jobs_are_submitted_jobs (large : Z → Z) (es : list event) :
  Forall (one_of (submitted es)) (held (execs large es idle)).
Proof.
  pose (P := one_of (submitted es)).
  assert (Hall : all_jobs P P P P P (execs large es idle)).
  { apply execs_all_jobs; try done;
      try apply idle_all_jobs; try apply submitted_allowed;
      intros x Hx _ _; by apply bump_one_of. }
  destruct Hall as (HS & HR & HW & HD & HH).
  unfold held. rewrite !Forall_app. by repeat split.
Qed.


(** ** How many jobs a system holds *)

Lemma AddJob_population (q : JobQueue) (x : Job) :
  (length (service_order (AddJob q x)) ≤ S (length (service_order q)))%nat.
Proof.
  unfold service_order. rewrite !queue_calls.AddJob_lane_any, !length_app.
  destruct (decide (known_priority (Priority x))) as [Hk|Hk].
  - repeat case_decide; simpl; try lia;
      unfold High, Medium, Low in *; lia.
  - repeat case_decide; simpl; try lia; tauto.
Qed.

Lemma MoveJobToDeadLetterQueue_population (q : JobQueue) (x : Job) :
  (length (service_order (MoveJobToDeadLetterQueue q x))
   ≤ length (service_order q))%nat
  ∧ (length (dead_letter_order (MoveJobToDeadLetterQueue q x))
     ≤ S (length (dead_letter_order q)))%nat.
Proof.
  destruct (decide (known_priority (Priority x))) as [Hk|Hk];
    [|rewrite queue_props.MoveJobToDeadLetterQueue_unknown by done; lia].
  unfold service_order, dead_letter_order.
  rewrite !(proj1 (queue_props.MoveJobToDeadLetterQueue_lanes q x _ Hk)).
  rewrite !(proj2 (queue_props.MoveJobToDeadLetterQueue_lanes q x _ Hk)).
  rewrite !length_app.
  pose proof (queue_props.RemoveJob_length (lane (queue q) High) x).
  pose proof (queue_props.RemoveJob_length (lane (queue q) Medium) x).
  pose proof (queue_props.RemoveJob_length (lane (queue q) Low) x).
  split; repeat case_decide; simpl; try lia;
    unfold High, Medium, Low in *; lia.
Qed.

Lemma exec_population (large : Z → Z) (s : System) (e : event) :
  (population (exec large s e)
   ≤ population s + length (submitted [e]))%nat.
Proof.
  destruct e as [|i|i|x]; cbn [exec submitted flat_map app length].
  - (* Poll *)
    destruct (service_order (store s)) as [|x rest] eqn:Hso.
    { rewrite poll_empty by done. lia. }
    destruct (poll_head s x rest Hso) as (q' & Hget & Hrest & Hdl).
    unfold poll. rewrite Hget.
    destruct (String.eqb (ID x) ""); unfold population, dead_letter_order;
      cbn [store running timers handled];
      rewrite Hrest, Hdl, Hso, ?length_app; simpl; lia.
  - (* Finish *)
    unfold finish. destruct (running s !! i) as [x|] eqn:Hi; [|lia].
    assert (Hdel : S (length (delete i (running s))) = length (running s)).
    { rewrite length_delete by done.
      apply lookup_lt_Some in Hi. lia. }
    destruct (handleJob x); [|unfold population; cbn [store running timers]; lia].
    destruct (on_failure large x) as [delay x'|x'];
      unfold population; cbn [store running timers].
    + rewrite length_app. simpl. lia.
    + pose proof (MoveJobToDeadLetterQueue_population (store s) x'). lia.
  - (* Fire *)
    unfold fire. destruct (timers s !! i) as [[delay x]|] eqn:Hi; [|lia].
    assert (Hdel : S (length (delete i (timers s))) = length (timers s)).
    { rewrite length_delete by done.
      apply lookup_lt_Some in Hi. lia. }
    unfold population. cbn [store running timers].
    rewrite queue_props.dead_AddJob.
    pose proof (AddJob_population (store s) x). lia.
  - (* Submit *)
    unfold submit, population. cbn [store running timers].
    rewrite queue_props.dead_AddJob.
    pose proof (AddJob_population (store s) x). lia.
Qed.

(** X18. The workers never duplicate a job. In any interleaving of the
    workers, the retry goroutines and the producers, from any state,
    the number of jobs the system holds (pending, in the workers, in
    the retry goroutines and in the dead-letter queue) is at most the
    number it held at first plus the number of jobs the producers
    added; from a new store it is at most the number of jobs added. *)
Theorem workers_never_duplicate_jobs
    (large : Z → Z) (es : list event) (s : System) :
  (population (execs large es s)
   ≤ population s + length (submitted es))%nat
  ∧ (population (execs large es idle) ≤ length (submitted es))%nat.
Proof.
  assert (Hany : ∀ s', (population (execs large es s')
                        ≤ population s' + length (submitted es))%nat).
  { induction es as [|e es IH]; intros s'; [simpl; lia|].
    change (execs large (e :: es) s') with (execs large es (exec large s' e)).
    assert (Hlen : length (submitted (e :: es))
                   = (length (submitted [e]) + length (submitted es))%nat)
      by (by destruct e).
    specialize (IH (exec large s' e)).
    pose proof (exec_population large s' e) as He.
    lia. }
  split; [apply Hany|].
  specialize (Hany idle). by vm_compute (population idle) in Hany.
Qed.

(** ** A job [handleJob] succeeds for *)

Lemma polls_reach (large : Z → Z) (j : Job) (before : list Job) (x : Job)
    (after : list Job) (s : System) :
  service_order (store s) = before ++ x :: after →
  copies j before = [] →
  ∃ es, Forall (foreign j) es
        ∧ view j (execs large es s) = view j s
        ∧ service_order (store (execs large es s)) = x :: after.
Proof.
  revert s. induction before as [|y before IH]; intros s Hso Hb.
  { exists []. by repeat split. }
  assert (Hy : ID y ≠ ID j).
  { intros Hy. by rewrite queue_props.copies_cons_mine in Hb. }
  rewrite queue_props.copies_cons_foreign in Hb by done.
  destruct (poll_foreign j s y _ Hso Hy) as [Hview Hso'].
  destruct (IH (poll s) Hso' Hb) as (es & Hes & Hview' & Hrest).
  exists (Poll :: es). split; [by constructor|].
  split; [|done]. simpl. by rewrite Hview'.
Qed.

Section Success.

Variable large : Z → Z.
Variable j : Job.
Hypothesis j_named : ID j ≠ ""%string.
Hypothesis j_succeeds : handleJob j = None.

Lemma poll_queued_once (s : System) (x : Job) (rest : list Job) :
  queued_once j s → service_order (store s) = x :: rest → ID x = ID j →
  in_hand j (poll s).
Proof using j_named.
  intros Hview Hso Hx. unfold in_hand.
  rewrite (poll_mine j j_named s x rest Hso Hx).
  unfold queued_once, view in Hview.
  rewrite Hso, queue_props.copies_cons_mine in Hview by done.
  injection Hview as -> Hrest -> -> -> -> ->.
  by rewrite Hrest.
Qed.

Lemma finish_in_hand (s : System) (i : nat) (x : Job) :
  in_hand j s → running s !! i = Some x → ID x = ID j →
  handled_once j (finish large i s).
Proof using j_succeeds.
  intros Hview Hi Hx. unfold in_hand, view in Hview.
  injection Hview as Hpend Hrun Hwait Hdead Hlane Hhand.
  destruct (queue_props.copies_delete_single j x _ _ i Hi Hx Hrun) as [-> Hgone].
  unfold finish. rewrite Hi, j_succeeds.
  unfold handled_once, view. cbn [store running timers handled].
  by rewrite Hpend, Hgone, Hwait, Hdead, Hlane, Hhand.
Qed.

Lemma once_exec (s : System) (e : event) :
  foreign j e →
  queued_once j s ∨ in_hand j s ∨ handled_once j s →
  queued_once j (exec large s e) ∨ in_hand j (exec large s e)
  ∨ handled_once j (exec large s e).
Proof using j_named j_succeeds.
  intros He Hs.
  assert (Hsame : view j (exec large s e) = view j s →
            queued_once j (exec large s e) ∨ in_hand j (exec large s e)
            ∨ handled_once j (exec large s e)).
  { intros Hv. unfold queued_once, in_hand, handled_once in *.
    by rewrite Hv. }
  destruct e as [|i|i|x]; cbn [exec] in *.
  - (* Poll *)
    destruct (service_order (store s)) as [|x rest] eqn:Hso.
    { apply Hsame. by rewrite poll_empty. }
    destruct (decide (ID x = ID j)) as [Hx|Hx];
      [|apply Hsame; by apply (poll_foreign j s x rest)].
    assert (Hpend : copies j (service_order (store s)) = x :: copies j rest)
      by (by rewrite Hso, queue_props.copies_cons_mine).
    destruct Hs as [Hq|[Hv|Hv]];
      try (unfold in_hand, handled_once, view in Hv; rewrite Hpend in Hv;
           discriminate).
    right. left. by apply (poll_queued_once s x rest).
  - (* Finish *)
    destruct (running s !! i) as [x|] eqn:Hi;
      [|apply Hsame; unfold finish; by rewrite Hi].
    destruct (decide (ID x = ID j)) as [Hx|Hx];
      [|apply Hsame; by apply (finish_foreign large j s i x)].
    pose proof (queue_props.copies_lookup j x _ i Hi Hx) as Hrun.
    destruct Hs as [Hv|[Hw|Hv]];
      try (unfold queued_once, handled_once, view in Hv; rewrite Hrun in Hv;
           injection Hv as _ Hv _; by destruct (copies j (take i (running s)))).
    right. right. by apply (finish_in_hand s i x).
  - (* Fire *)
    destruct (timers s !! i) as [[delay x]|] eqn:Hi;
      [|apply Hsame; unfold fire; by rewrite Hi].
    destruct (decide (ID x = ID j)) as [Hx|Hx];
      [|apply Hsame; by apply (fire_foreign j s i delay x)].
    assert (Hi' : (snd <$> timers s) !! i = Some x)
      by (by rewrite list_lookup_fmap, Hi).
    pose proof (queue_props.copies_lookup j x _ i Hi' Hx) as Hwait.
    destruct Hs as [Hv|[Hv|Hv]];
      unfold queued_once, in_hand, handled_once, view in Hv;
      rewrite Hwait in Hv; injection Hv as _ _ Hv _;
      by destruct (copies j (take i (snd <$> timers s))).
  - (* Submit *)
    apply Hsame. by apply submit_foreign.
Qed.

Lemma once_execs (es : list event) (s : System) :
  Forall (foreign j) es →
  queued_once j s ∨ in_hand j s ∨ handled_once j s →
  queued_once j (execs large es s) ∨ in_hand j (execs large es s)
  ∨ handled_once j (execs large es s).
Proof using j_named j_succeeds.
  intros Hes. revert s. induction Hes as [|e es He _ IH]; intros s Hs; [done|].
  simpl. apply IH. by apply once_exec.
Qed.

Lemma in_hand_progress (s : System) :
  in_hand j s → ∃ e, foreign j e ∧ handled_once j (exec large s e).
Proof using j_succeeds.
  intros Hw. pose proof Hw as Hview. unfold in_hand, view in Hview.
  injection Hview as _ Hrun _ _ _ _.
  assert (Hin : j ∈ copies j (running s))
    by (rewrite Hrun; apply list_elem_of_here).
  apply list_elem_of_filter in Hin as [_ Hin].
  apply list_elem_of_lookup in Hin as [i Hi].
  exists (Finish i). split; [done|].
  by apply (finish_in_hand s i j).
Qed.

Lemma once_progress (s : System) :
  queued_once j s ∨ in_hand j s ∨ handled_once j s →
  ∃ es, Forall (foreign j) es ∧ handled_once j (execs large es s).
Proof using j_named j_succeeds.
  intros [Hq|[Hw|Hd]].
  - pose proof Hq as Hview. unfold queued_once, view in Hview.
    injection Hview as Hpend _ _ _ _ _.
    destruct (queue_props.copies_single _ _ _ Hpend)
      as (before & after & Hso & Hb & _).
    destruct (polls_reach large j before j after s Hso Hb)
      as (es & Hes & Hview & Hso').
    assert (Hq' : queued_once j (execs large es s))
      by (unfold queued_once in *; by rewrite Hview).
    pose proof (poll_queued_once _ j after Hq' Hso' eq_refl) as Hw.
    destruct (in_hand_progress _ Hw) as (e & He & Hd).
    exists (es ++ [Poll; e]).
    split; [apply Forall_app; by repeat constructor|].
    by rewrite execs_app.
  - destruct (in_hand_progress _ Hw) as (e & He & Hd).
    exists [e]. split; [by repeat constructor|done].
  - exists []. by split.
Qed.

Lemma handled_once_stays (es : list event) (s : System) :
  Forall (foreign j) es →
  handled_once j s → handled_once j (execs large es s).
Proof.
  intros Hes. revert s. induction Hes as [|e es He _ IH]; intros s Hd; [done|].
  simpl. apply IH. unfold handled_once in *.
  rewrite inactive_exec; [done|done|..];
    unfold view in Hd; by injection Hd as Hpend Hrun Hwait _ _ _.
Qed.

End Success.

(** X14. A job [handleJob] succeeds for is attempted exactly once. Let
    [j] have an ID that is not empty and a payload [handleJob] accepts,
    and let its one copy be pending in a system that holds any other
    jobs, with none of its ID attempted before. Along any interleaving
    in which no producer adds a job of that ID: the copy is pending and
    unattempted, or in a worker for its one attempt, or gone after one
    call of [handleJob]; it is never given to a retry goroutine nor
    moved to the dead-letter queue; from each state an interleaving
    leads to the one where [j] was handled once and is gone; and no
    interleaving changes that. *)
Theorem successful_job_is_handled_once
    (large : Z → Z) (j : Job) (s : System) (es : list event) :
  ID j ≠ ""%string →
  handleJob j = None →
  queued_once j s →
  Forall (foreign j) es →
  let s' := execs large es s in
  (queued_once j s' ∨ in_hand j s' ∨ handled_once j s')
  ∧ copies j (snd <$> timers s') = []
  ∧ copies j (dead_letter_order (store s')) = []
  ∧ ∃ es', Forall (foreign j) es'
           ∧ handled_once j (execs large (es ++ es') s)
           ∧ ∀ es'', Forall (foreign j) es'' →
                     handled_once j (execs large (es ++ es' ++ es'') s).
Proof.
  intros Hid Hok Hq Hes s'.
  assert (Hs' : queued_once j s' ∨ in_hand j s' ∨ handled_once j s')
    by (apply once_execs; auto).
  split; [done|].
  assert (Hnone : copies j (snd <$> timers s') = []
                  ∧ copies j (dead_letter_order (store s')) = []).
  { destruct Hs' as [Hv|[Hv|Hv]];
      unfold queued_once, in_hand, handled_once, view in Hv;
      by injection Hv as _ _ -> -> _ _. }
  destruct Hnone as [Hwait Hdead]. split; [done|]. split; [done|].
  destruct (once_progress large j Hid Hok s' Hs') as (es' & Hes' & Hd).
  exists es'. split; [done|]. split; [by rewrite execs_app|].
  intros es'' Hes''. rewrite !execs_app.
  by apply handled_once_stays.
Qed.

Lemma successful_job_a_sample :
  handled_once samples.job_a
    (execs amd64_large_float [Submit samples.job_b; Poll; Finish 0%nat]
           (submit samples.job_a idle)).
Proof.
  assert (Hid : ID samples.job_a ≠ ""%string) by (vm_compute; congruence).
  assert (Hok : handleJob samples.job_a = None) by (vm_compute; reflexivity).
  assert (Hq : queued_once samples.job_a (submit samples.job_a idle))
    by (vm_compute; reflexivity).
  assert (Hes : Forall (foreign samples.job_a)
                  [Submit samples.job_b; Poll; Finish 0%nat]).
  { repeat constructor. vm_compute. congruence. }
  pose proof (successful_job_is_handled_once amd64_large_float samples.job_a
                _ _ Hid Hok Hq Hes) as [Hstate _].
  destruct Hstate as [Hv|[Hv|Hv]]; [vm_compute in Hv; congruence..|exact Hv].
Defined.


(** ** The delay of a retry, by retry count *)

Lemma in_range (rc : Z) (lo len : nat) :
  Z.of_nat lo ≤ rc < Z.of_nat (lo + len) →
  In rc (map Z.of_nat (seq lo len)).
Proof.
  intros Hrc. apply in_map_iff. exists (Z.to_nat rc).
  split; [lia|]. apply in_seq. lia.
Qed.

Lemma backoff_wrapped (large : Z → Z) (rc : Z) :
  34 ≤ rc ≤ 62 → backoff large rc ≠ 2 ^ rc * Second.
Proof.
  intros Hrc.
  assert (Hall : forallb (λ rc, negb (backoff large rc =? 2 ^ rc * Second))
                         (map Z.of_nat (seq 34 29)) = true)
    by (vm_compute; reflexivity).
  rewrite forallb_forall in Hall.
  specialize (Hall rc (in_range rc 34 29 ltac:(lia))).
  apply negb_true_iff, Z.eqb_neq in Hall. done.
Qed.

Lemma backoff_vanishes (large : Z → Z) (rc : Z) :
  55 ≤ rc ≤ 62 → backoff large rc = 0.
Proof.
  intros Hrc.
  assert (Hall : forallb (λ rc, backoff large rc =? 0)
                         (map Z.of_nat (seq 55 8)) = true)
    by (vm_compute; reflexivity).
  rewrite forallb_forall in Hall.
  specialize (Hall rc (in_range rc 55 8 ltac:(lia))).
  by apply Z.eqb_eq in Hall.
Qed.

(** X15. The delay of a retry over the retry counts whose power of 2 an
    [int64] holds. For a retry count from 0 to 62 the delay is
    2^retryCount seconds exactly when the retry count is at most 33,
    and up to there each retry waits twice as long as the one before;
    from 55 to 62 the product wraps around to a delay of zero. A
    negative retry count, whose power of 2 is below 1, gives a delay of
    zero as well. *)
Theorem backoff_by_retry_count (large : Z → Z) (rc : Z) :
  (rc < 0 → backoff large rc = 0)
  ∧ (0 ≤ rc ≤ 62 → (backoff large rc = 2 ^ rc * Second ↔ rc ≤ 33))
  ∧ (0 ≤ rc < 33 → backoff large (rc + 1) = 2 * backoff large rc)
  ∧ (55 ≤ rc ≤ 62 → backoff large rc = 0).
Proof.
  split; [|split; [|split]].
  - intros Hrc. unfold backoff, pow2_duration.
    destruct (Z.ltb_spec rc 0); [done|lia].
  - intros Hrc. split.
    + intros Heq. destruct (decide (rc ≤ 33)) as [|Hgt]; [done|].
      by destruct (backoff_wrapped large rc ltac:(lia)).
    + intros Hle. apply backoff_exact. lia.
  - intros Hrc. rewrite !backoff_exact by lia.
    rewrite Z.pow_add_r by lia. lia.
  - apply backoff_vanishes.
Qed.

End worker_runs.

(** * The action of enqueue *)

Module main_props.
Import utils scheduler main.

Lemma seconds_exact (delay : Z) :
  0 ≤ delay ≤ max_delay → seconds delay = delay * worker.Second.
Proof.
  intros Hd. apply worker_props.wrap_int_id.
  unfold worker.is_int, worker.min_int, worker.max_int, worker.Second,
    max_delay in *. lia.
Qed.

Lemma enqueue_job_priority (id : string) (created : Z) (to priority : string)
    (retries : Z) :
  Priority (enqueue_job id created to priority retries)
  = if decide (priority = "high"%string) then High else Low.
Proof.
  unfold enqueue_job. cbn [Priority].
  destruct (String.eqb_spec priority "high"); by case_decide.
Qed.


(** X16. Where the action of [enqueue] puts its job, for any state of
    the store and of the scheduler. The job has priority [High] when the
    flag is ["high"] and [Low] for any other text, ["medium"] included.
    With a delay of zero or less the job is appended to the lane of its
    priority, the other lanes, the dead-letter queue and the heap staying
    as they are; with a delay above zero the store stays as it is, and
    the heap gains one entry for the job, due, for a delay of at most
    [max_delay] seconds, that many seconds after the clock reading. *)
Theorem enqueue_routes_by_delay
    (id : string) (created now : Z) (to priority : string)
    (retries delay : Z) (s : Scheduler) :
  let j := enqueue_job id created to priority retries in
  let s' := enqueue id created now to priority retries delay s in
  Priority j = (if decide (priority = "high"%string) then High else Low)
  ∧ (delay ≤ 0 →
     heap s' = heap s
     ∧ queue.deadLetterQueue (queue s') = queue.deadLetterQueue (queue s)
     ∧ ∀ p, queue.lane (queue.queue (queue s')) p
            = queue.lane (queue.queue (queue s)) p
              ++ (if decide (p = Priority j) then [j] else []))
  ∧ (0 < delay →
     queue s' = queue s
     ∧ entry <$> heap s'
       ≡ₚ (j, Time_Add now (seconds delay)) :: (entry <$> heap s))
  ∧ (0 < delay ≤ max_delay → seconds delay = delay * worker.Second).
Proof.
  intros j s'. split; [apply enqueue_job_priority|].
  assert (Hk : known_priority (Priority j)).
  { unfold j. rewrite enqueue_job_priority. case_decide; vm_compute; tauto. }
  split; [|split].
  - intros Hd. unfold s', enqueue.
    destruct (Z.ltb_spec 0 delay); [lia|]. cbn [heap queue]. fold j.
    split; [done|]. split; [apply queue_props.AddJob_deadLetterQueue|].
    intros p. rewrite queue_props.AddJob_lane, queue_props.of_priority_single by done.
    repeat case_decide; congruence.
  - intros Hd. unfold s', enqueue.
    destruct (Z.ltb_spec 0 delay); [|lia]. fold j.
    unfold Scheduler_Scheduler. cbn [heap queue]. split; [done|].
    apply scheduler_props.heap_Push_entries.
  - intros Hd. apply seconds_exact. lia.
Qed.

(** X17. From the command line to the worker's [GetJob], through the
    scheduler. On a new store and scheduler, the job [enqueue] schedules
    with a delay from 1 to [max_delay] seconds stays out of the store
    until the clock is past its time: an iteration of the poller at a
    clock reading up to [now] plus the delay changes nothing, and
    [GetJob] finds no job; an iteration at a later reading empties the
    heap, and [GetJob] then returns the job, with no error. *)
Theorem delayed_enqueue_reaches_GetJob
    (id : string) (created now : Z) (to priority : string)
    (retries delay : Z) (t : Z) :
  0 < delay ≤ max_delay →
  let j := enqueue_job id created to priority retries in
  let s := enqueue id created now to priority retries delay
                   (NewScheduler queue.NewQueue) in
  let due := now + delay * worker.Second in
  (t ≤ due →
   poller_tick t s = s
   ∧ fst (queue.GetJob (queue s)) = (zeroJob, queue.no_job_found))
  ∧ (due < t →
     heap (poller_tick t s) = []
     ∧ fst (queue.GetJob (queue (poller_tick t s))) = (j, None)).
Proof.
  intros Hd j s due.
  assert (Hs : s = mkScheduler [mkScheduleJob j due 0] queue.NewQueue).
  { unfold s, enqueue. destruct (Z.ltb_spec 0 delay); [|lia]. fold j.
    rewrite seconds_exact by lia. done. }
  rewrite Hs. unfold poller_tick, Time_After. cbn [heap queue Len length lookup].
  simpl. split; intros Ht.
  - rewrite bool_decide_eq_false_2 by lia. done.
  - rewrite bool_decide_eq_true_2 by lia. cbn [heap queue].
    split; [done|]. unfold j, enqueue_job.
    by destruct (String.eqb priority "high").
Qed.

Lemma delayed_enqueue_sample :
  fst (queue.GetJob
         (queue (poller_tick 5000000001
                   (enqueue "a" 0 0 "a@example.com" "high" 3 5
                            (NewScheduler queue.NewQueue)))))
  = (enqueue_job "a" 0 "a@example.com" "high" 3, None).
Proof.
  assert (Hd : 0 < 5 ≤ max_delay) by (unfold max_delay; lia).
  pose proof (delayed_enqueue_reaches_GetJob
                "a" 0 0 "a@example.com" "high" 3 5 5000000001 Hd)
    as [_ Hlate].
  apply Hlate. unfold worker.Second. lia.
Defined.

End main_props.
